(** * TVMCommons: common TVM code generation routines

    A shallow embedding of [compiler/libsolidity/codegen/TVMCommons.cpp]:
    the type-encoding helpers (store instruction, dictionary key kind and
    length, enum width) and the helpers that walk a contract's linearised
    inheritance chain. *)

From Stdlib Require Import ZArith NArith List String Ascii Bool Lia DecimalString.
From Stdlib Require Import DecimalZ.
From Equations Require Import Equations.
Import ListNotations.

Local Open Scope string_scope.
Local Open Scope list_scope.
Local Open Scope Z_scope.

(** ** Results of code that may hit [solAssert] *)

(** [solAssert(cond, msg)] throws an internal compiler error when [cond] is
    false: the function then produces no value.  [Undefined] stands for a run
    whose behaviour C++ leaves undefined (the overflow of an [int]). *)
Inductive result (A : Type) : Type :=
| Ok (a : A)
| AssertionFailed (msg : string)
| Undefined.
Arguments Ok {A} a.
Arguments AssertionFailed {A} msg.
Arguments Undefined {A}.

Definition bind {A B : Type} (r : result A) (k : A -> result B) : result B :=
  match r with
  | Ok a => k a
  | AssertionFailed msg => AssertionFailed msg
  | Undefined => Undefined
  end.

Definition solAssert (cond : bool) (msg : string) : result unit :=
  if cond then Ok tt else AssertionFailed msg.

Notation "r ;;; k" := (bind r (fun _ => k))
  (at level 61, right associativity).
Notation "x <- r ;; k" := (bind r (fun x => k))
  (at level 61, r at next level, right associativity).

(** ** The type [int] *)

(** An [int] has 32 bits; its values are kept in [Z], and an addition whose
    result leaves the range has undefined behaviour. *)
Definition INT_MAX : Z := 2147483647.
Definition INT_MIN : Z := -2147483648.

Definition in_int (z : Z) : bool := (INT_MIN <=? z) && (z <=? INT_MAX).

Definition int_add (a b : Z) : result Z :=
  if in_int (a + b) then Ok (a + b) else Undefined.

Definition fails {A : Type} (r : result A) : Prop :=
  exists msg, r = AssertionFailed msg.

(** ** Strings *)

Module Str.

(** [std::string::compare(pos, len, str)]: the three-way comparison of the
    substring [pos, pos+len) with [str]; [Eq] stands for the result 0. *)
Definition compare_at (s : string) (pos len : nat) (t : string) : comparison :=
  String.compare (substring pos len s) t.

(** [std::string::find(pat)]: the position of the first occurrence of [pat],
    [None] for [npos]. *)
Definition find (s pat : string) : option nat := index 0 pat s.

(** [toString] of an [int]: its decimal digits, as [operator<<] prints them. *)
Definition toString (n : Z) : string := NilEmpty.string_of_int (Z.to_int n).

End Str.

Definition ends_with (str suffix : string) : bool :=
  if (String.length str <? String.length suffix)%nat then false
  else
    match Str.compare_at str (String.length str - String.length suffix)
                         (String.length suffix) suffix with
    | Eq => true
    | _ => false
    end.

Definition isTvmIntrinsic (name : string) : bool :=
  match Str.find name "tvm_" with
  | Some O => true
  | _ => false
  end.

Definition isMacro (functionName : string) : bool :=
  ends_with functionName "_macro".

(** ** Enum width *)

(** [size_t] is an unsigned integer of [8 * sizeof_size_t] bits; its values
    are kept in [N] and the decrement wraps around. *)
Definition size_max_succ (sizeof_size_t : N) : N := (2 ^ (8 * sizeof_size_t))%N.

Definition size_decr (sizeof_size_t : N) (v : N) : N :=
  ((v + (size_max_succ sizeof_size_t - 1)) mod size_max_succ sizeof_size_t)%N.

(** The body of [while (true)]: shift, count, leave on zero. *)
Equations? bitsForEnum_loop (val_count : N) (bytes : Z) : Z
  by wf (N.to_nat val_count) lt :=
  bitsForEnum_loop val_count bytes with N.eq_dec (N.shiftr val_count 8) 0 => {
    | left _ := bytes + 1
    | right _ := bitsForEnum_loop (N.shiftr val_count 8) (bytes + 1) }.
Proof.
  change (N.div2 _) with (N.shiftr val_count 8) in *.
  rewrite N.shiftr_div_pow2 in *.
  assert (0 < val_count)%N.
  { destruct (N.eq_dec val_count 0) as [->|]; [ now elim n | lia ]. }
  assert (val_count / 2 ^ 8 < val_count)%N by (apply N.div_lt; lia).
  lia.
Qed.

(** [bitsForEnum(val_count)] on a platform whose [size_t] has
    [sizeof_size_t] bytes; the [int] result is kept in [Z]. *)
Definition bitsForEnum (sizeof_size_t : N) (val_count : N) : Z :=
  let bytes := 0 in
  let val_count := size_decr sizeof_size_t val_count in
  let bytes := bitsForEnum_loop val_count bytes in
  8 * bytes.

(** ** Semantic types *)

(** Modelled from the spec: [Type::Category] and the type classes are declared
    in libsolidity/ast/Types.h, which is not among the sources.  The variants
    are those of the spec's data model, with the TVM cell, mapping, function
    and tuple types the code generator also meets; [CatOther] stands for any
    further category, by its name. *)
Inductive Category : Set :=
| CatAddress | CatInteger | CatBool | CatFixedBytes | CatContract
| CatArray | CatStringLiteral | CatStruct | CatEnum
| CatTvmCell | CatMapping | CatFunction | CatTuple
| CatOther (name : string).

Definition Category_eqb (a b : Category) : bool :=
  match a, b with
  | CatAddress, CatAddress | CatInteger, CatInteger | CatBool, CatBool
  | CatFixedBytes, CatFixedBytes | CatContract, CatContract
  | CatArray, CatArray | CatStringLiteral, CatStringLiteral
  | CatStruct, CatStruct | CatEnum, CatEnum | CatTvmCell, CatTvmCell
  | CatMapping, CatMapping | CatFunction, CatFunction
  | CatTuple, CatTuple => true
  | CatOther a, CatOther b => String.eqb a b
  | _, _ => false
  end.

(** An array is an ordinary array, [bytes] or [string]; the last two are the
    byte arrays. *)
Inductive ArrayKind : Set := Ordinary | Bytes | StringKind.

#[warnings="-register-all"]
Inductive Type_ : Type :=
| IntegerType (signed : bool) (bits : Z)
| BoolType
| FixedBytesType (numBytes : Z)
| EnumType (numberOfMembers : N)
| AddressType
| ContractType
| ArrayType (kind : ArrayKind)
| StringLiteralType
| StructType (members : list (string * Type_))
| TvmCellType
| MappingType (keyType valueType : Type_)
| FunctionType
| TupleType (components : list Type_)
| OtherType (categoryName : string).

Definition category (t : Type_) : Category :=
  match t with
  | IntegerType _ _ => CatInteger
  | BoolType => CatBool
  | FixedBytesType _ => CatFixedBytes
  | EnumType _ => CatEnum
  | AddressType => CatAddress
  | ContractType => CatContract
  | ArrayType _ => CatArray
  | StringLiteralType => CatStringLiteral
  | StructType _ => CatStruct
  | TvmCellType => CatTvmCell
  | MappingType _ _ => CatMapping
  | FunctionType => CatFunction
  | TupleType _ => CatTuple
  | OtherType name => CatOther name
  end.

(** [to<T>(type)]: the dynamic cast, [None] or [false] for the null pointer. *)
Definition to_AddressType (t : Type_) : bool :=
  match t with AddressType => true | _ => false end.
Definition to_ContractType (t : Type_) : bool :=
  match t with ContractType => true | _ => false end.
Definition to_ArrayType (t : Type_) : option ArrayKind :=
  match t with ArrayType k => Some k | _ => None end.
Definition to_StructType (t : Type_) : option (list (string * Type_)) :=
  match t with StructType ms => Some ms | _ => None end.

Definition isByteArray (k : ArrayKind) : bool :=
  match k with Ordinary => false | _ => true end.
Definition isStringArray (k : ArrayKind) : bool :=
  match k with StringKind => true | _ => false end.

(** [isIn(v, a, b)] *)
Definition isIn (v a b : Category) : bool :=
  Category_eqb v a || Category_eqb v b.

(** The numeric view of a type, with the fields this file reads of it; the
    struct and the constructor that fills it are declared in TVMCommons.hpp.
    [int numBits] is kept in [Z]. *)
Record TypeInfo : Type := mkTypeInfo {
  isNumeric : bool;
  isSigned : bool;
  numBits : Z
}.

Definition isAddressOrContractType (type : Type_) : bool :=
  to_AddressType type || to_ContractType type.

Definition isUsualArray (type : Type_) : bool :=
  match to_ArrayType type with
  | Some arrayType => negb (isByteArray arrayType)
  | None => false
  end.

Definition isByteArrayOrString (type : Type_) : bool :=
  match to_ArrayType type with
  | Some arrayType => isByteArray arrayType
  | None => false
  end.

Definition isString (type : Type_) : bool :=
  Category_eqb (category type) CatStringLiteral ||
  match to_ArrayType type with
  | Some arrayType => isStringArray arrayType
  | None => false
  end.

Definition isStringOrStringLiteralOrBytes (type : Type_) : bool :=
  Category_eqb (category type) CatStringLiteral ||
  match to_ArrayType type with
  | Some arrayType => isByteArray arrayType
  | None => false
  end.

Definition isRefType (t : Type_) : bool :=
  (Category_eqb (category t) CatArray &&
   match to_ArrayType t with Some a => isByteArray a | None => false end) ||
  Category_eqb (category t) CatTvmCell.

Section TypeEncoding.

(** What this file takes from its headers: [TypeInfo]'s constructor
    (TVMCommons.hpp), [AddressInfo::stdAddrLength()] and [Type::toString()]. *)
Variable typeInfo : Type_ -> TypeInfo.
Variable stdAddrLength : Z.
Variable Type_toString : Type_ -> string.

Definition isIntegralType (type : Type_) : bool :=
  isNumeric (typeInfo type).

Definition typeToDictChar (keyType : Type_) : string :=
  let ti := typeInfo keyType in
  if isNumeric ti then
    if isSigned ti then "I" else "U"
  else if isStringOrStringLiteralOrBytes keyType then
    "U"
  else "".

(** The [for] loop over the members of a struct key; [bitLength] is an [int]
    and [bitLength += ti.numBits] an addition of [int]s. *)
Fixpoint lengthOfDictKey_members (members : list (string * Type_)) (bitLength : Z)
  : result Z :=
  match members with
  | [] => Ok bitLength
  | member :: rest =>
      let ti := typeInfo (snd member) in
      solAssert (isNumeric ti) "" ;;;
      bitLength <- int_add bitLength (numBits ti) ;;
      lengthOfDictKey_members rest bitLength
  end.

Definition lengthOfDictKey (key : Type_) : result Z :=
  if isIn (category key) CatAddress CatContract then
    Ok stdAddrLength
  else
    let ti := typeInfo key in
    if isNumeric ti then Ok (numBits ti)
    else if isStringOrStringLiteralOrBytes key then Ok 256
    else
      match to_StructType key with
      | Some members => lengthOfDictKey_members members 0
      | None => AssertionFailed ""        (* solAssert(false, "") *)
      end.

Definition storeIntegralOrAddress (type : Type_) (reverse : bool) : result string :=
  if isAddressOrContractType type then
    Ok (if reverse then "STSLICER" else "STSLICE")
  else
    let ti := typeInfo type in
    if isNumeric ti then
      let cmd := if isSigned ti then "STI" else "STU" in
      let cmd := if reverse then (cmd ++ "R")%string else cmd in
      solAssert (negb (String.eqb cmd "STU 267")) "" ;;;
      Ok (cmd ++ " " ++ Str.toString (numBits ti))%string
    else                                    (* solAssert(false, ...) *)
      AssertionFailed ("Unsupported param type " ++ Type_toString type)%string.

End TypeEncoding.

(** ** Contracts and function definitions *)

(** Modelled from the spec: [FunctionDefinition] and [ContractDefinition] are
    declared in libsolidity/ast/AST.h, which is not among the sources.  The
    code holds them by pointer and compares pointers, so the program model is
    a store of nodes by address; a node carries what this file reads of it. *)
Definition ptr : Set := positive.
Bind Scope positive_scope with ptr.

Record FunctionDefinition : Set := mkFunction {
  f_name : string;
  isConstructor : bool;
  isReceive : bool;
  isFallback : bool;
  isOnBounce : bool;
  isInline : bool;
  f_contract : ptr            (* annotation().contract *)
}.

Record ContractDefinition : Set := mkContract {
  c_name : string;
  definedFunctions : list ptr;
  linearizedBaseContracts : list ptr    (* most derived first *)
}.

Record Program : Set := mkProgram {
  contractAt : ptr -> ContractDefinition;
  functionAt : ptr -> FunctionDefinition
}.

(** [std::vector::back()]; [None] when the vector is empty, where the C++
    behaviour is undefined. *)
Definition back {A : Type} (v : list A) : option A :=
  match rev v with
  | x :: _ => Some x
  | [] => None
  end.

Definition push_back {A : Type} (v : list A) (x : A) : list A := v ++ [x].

Definition isFunctionForInlining (f : FunctionDefinition) : bool :=
  ends_with (f_name f) "_inline" || isInline f || isFallback f || isReceive f
  || isOnBounce f.

Section Hierarchy.

Variable P : Program.

Definition functionName (_function : ptr) : string :=
  let f := functionAt P _function in
  if isConstructor f then c_name (contractAt P (f_contract f))
  else if isReceive f then "receive"
  else if isFallback f then "fallback"
  else if isOnBounce f then "onBounce"
  else f_name f.

Definition getContractsChain (contract : ptr) : list ptr :=
  let contracts := linearizedBaseContracts (contractAt P contract) in
  rev contracts.

Definition getContractFunctionPairs (contract : ptr) : list (ptr * ptr) :=
  fold_left
    (fun result c =>
       fold_left (fun result f => push_back result (f, c))
                 (definedFunctions (contractAt P c)) result)
    (getContractsChain contract) [].

(** The loop of [getFunction]: the first function with that declared name. *)
Fixpoint getFunction_loop (fs : list ptr) (functionName : string) : option ptr :=
  match fs with
  | [] => None
  | f :: rest =>
      if String.eqb (f_name (functionAt P f)) functionName then Some f
      else getFunction_loop rest functionName
  end.

Definition getFunction (contract : ptr) (functionName : string) : option ptr :=
  getFunction_loop (definedFunctions (contractAt P contract)) functionName.

(** The loop of [getSuperContract], with its [break]. *)
Fixpoint getSuperContract_loop (chain : list ptr) (currentContract : ptr)
  (fname : string) (prev : option ptr) : option ptr :=
  match chain with
  | [] => prev
  | c :: rest =>
      if Pos.eqb c currentContract then prev
      else
        let prev := match getFunction c fname with
                    | Some _ => Some c
                    | None => prev
                    end in
        getSuperContract_loop rest currentContract fname prev
  end.

Definition getSuperContract (currentContract mainContract : ptr) (fname : string)
  : option ptr :=
  getSuperContract_loop (getContractsChain mainContract) currentContract fname None.

(** [getContractFunctions(contract, funcName)] *)
Definition getContractFunctionsNamed (contract : ptr) (funcName : string)
  : list ptr :=
  fold_left
    (fun result (pair : ptr * ptr) =>
       let functionDefinition := fst pair in
       if isConstructor (functionAt P functionDefinition) then result
       else if String.eqb (functionName functionDefinition) funcName
            then push_back result functionDefinition
            else result)
    (getContractFunctionPairs contract) [].

(** One turn of the loop of [getContractFunctions(contract)]; [None] when
    [back()] is taken of an empty vector. *)
Definition getContractFunctions_step (contract : ptr)
  (result : option (list ptr)) (pair : ptr * ptr) : option (list ptr) :=
  match result with
  | None => None
  | Some result =>
      let functionDefinition := fst pair in
      if isConstructor (functionAt P functionDefinition) then Some result
      else
        let funName := functionName functionDefinition in
        if isTvmIntrinsic funName then Some result
        else
          match back (getContractFunctionsNamed contract funName) with
          | None => None
          | Some winner =>
              if negb (Pos.eqb functionDefinition winner) then Some result
              else Some (push_back result functionDefinition)
          end
  end.

Definition getContractFunctions (contract : ptr) : option (list ptr) :=
  fold_left (getContractFunctions_step contract)
            (getContractFunctionPairs contract) (Some []).

End Hierarchy.

(** ** Reference notions the properties are stated with *)

(** [s] ends with [suffix]. *)
Definition has_suffix (s suffix : string) : Prop :=
  exists pre, s = (pre ++ suffix)%string.

(** [s] starts with [prefix]. *)
Definition has_prefix (s pre : string) : Prop :=
  exists rest, s = (pre ++ rest)%string.

(** [t] is a byte array, a string or a string literal. *)
Definition stringLike (t : Type_) : Prop :=
  t = StringLiteralType \/ t = ArrayType Bytes \/ t = ArrayType StringKind.

(** Contract [c] declares a function whose declared name is [fname]. *)
Definition declares (P : Program) (c : ptr) (fname : string) : Prop :=
  exists f, In f (definedFunctions (contractAt P c)) /\
            f_name (functionAt P f) = fname.

(** The test [getSuperContract] makes of a contract of the chain. *)
Definition declaresb (P : Program) (fname : string) (c : ptr) : bool :=
  match getFunction P c fname with
  | Some _ => true
  | None => false
  end.

(** [c] is the last contract of [l] that declares [fname]. *)
Definition last_declaring (P : Program) (l : list ptr) (fname : string) (c : ptr)
  : Prop :=
  exists l1 l2, l = l1 ++ c :: l2 /\ declares P c fname /\
                forall c', In c' l2 -> ~ declares P c' fname.

(** The role of a function definition, as the data model has it: one tag. *)
Inductive Role : Set := Regular | Constructor | Receive | Fallback | OnBounce.

Definition roleOf (fd : FunctionDefinition) : Role :=
  if isConstructor fd then Constructor
  else if isReceive fd then Receive
  else if isFallback fd then Fallback
  else if isOnBounce fd then OnBounce
  else Regular.

(** The effective name of a function, by its role: the name of its contract
    for a constructor, the name of the role for a receive, fallback or
    onBounce function, the declared name for a regular function. *)
Definition effectiveName (P : Program) (f : ptr) : string :=
  match roleOf (functionAt P f) with
  | Constructor => c_name (contractAt P (f_contract (functionAt P f)))
  | Receive => "receive"
  | Fallback => "fallback"
  | OnBounce => "onBounce"
  | Regular => f_name (functionAt P f)
  end.

(** The declarations reachable from [contract]: those of its linearized base
    contracts taken from the last (the base) to the first (the most derived),
    each contract's in the order it defines them. *)
Definition chainFunctions (P : Program) (contract : ptr) : list ptr :=
  flat_map (fun c => definedFunctions (contractAt P c))
           (rev (linearizedBaseContracts (contractAt P contract))).

(** [f] takes part in override resolution under the effective name [name]. *)
Definition candidate (P : Program) (name : string) (f : ptr) : Prop :=
  isConstructor (functionAt P f) = false /\ effectiveName P f = name.

Definition candidateb (P : Program) (name : string) (f : ptr) : bool :=
  negb (isConstructor (functionAt P f)) && String.eqb (functionName P f) name.

(** [w] is the most derived declaration of the chain with the effective name
    [name]: the last candidate in base-first order. *)
Definition mostDerived (P : Program) (contract : ptr) (name : string) (w : ptr)
  : Prop :=
  exists l1 l2, chainFunctions P contract = l1 ++ w :: l2 /\
                candidate P name w /\
                forall g, In g l2 -> ~ candidate P name g.

(** The test [getContractFunctions] makes of a declaration of the chain. *)
Definition visibleb (P : Program) (contract : ptr) (f : ptr) : bool :=
  negb (isConstructor (functionAt P f)) &&
  negb (isTvmIntrinsic (functionName P f)) &&
  match back (getContractFunctionsNamed P contract (functionName P f)) with
  | Some winner => Pos.eqb f winner
  | None => false
  end.

(** The sum of the members' bit widths. *)
Definition membersBits (typeInfo : Type_ -> TypeInfo)
  (members : list (string * Type_)) : Z :=
  fold_right Z.add 0 (map (fun m => numBits (typeInfo (snd m))) members).

(** The mnemonic [storeIntegralOrAddress] builds for a numeric type. *)
Definition storeMnemonic (signed reverse : bool) : string :=
  ((if signed then "STI" else "STU") ++ (if reverse then "R" else ""))%string.

(** The widths of the members are not negative and their sum is an [int]. *)
Definition membersFitInt (typeInfo : Type_ -> TypeInfo)
  (members : list (string * Type_)) : Prop :=
  Forall (fun m => 0 <= numBits (typeInfo (snd m))) members /\
  membersBits typeInfo members <= INT_MAX.

(** The store instruction as the specification words it: the mnemonic with a
    space, the width, and the letter R last. *)
Definition storeInstruction_as_worded (signed : bool) (bits : Z) (reverse : bool)
  : string :=
  ((if signed then "STI " else "STU ") ++ Str.toString bits
   ++ (if reverse then "R" else ""))%string.

(** ** Sample inputs *)

(** Modelled from the spec: [TypeInfo]'s constructor is in TVMCommons.hpp,
    which is not among the sources; of the spec's data model
    [Integer(signed, bits)] is the numeric variant, and this instance takes
    no other type for numeric. *)
Definition integerTypeInfo (t : Type_) : TypeInfo :=
  match t with
  | IntegerType s b => mkTypeInfo true s b
  | _ => mkTypeInfo false false 0
  end.

Definition sample_toString (t : Type_) : string := "type".

(** Base (1) <- Mid (2) <- Derived (3): Base declares [foo], a constructor and
    the intrinsic [tvm_accept]; Mid declares [bar]; Derived declares [foo]. *)
Definition sampleProgram : Program :=
  mkProgram
    (fun c =>
       match c with
       | 1%positive => mkContract "Base" [10; 11; 12]%positive [1]%positive
       | 2%positive => mkContract "Mid" [20]%positive [2; 1]%positive
       | 3%positive => mkContract "Derived" [30]%positive [3; 2; 1]%positive
       | _ => mkContract "" [] []
       end)
    (fun f =>
       match f with
       | 10%positive => mkFunction "foo" false false false false false 1
       | 11%positive => mkFunction "" true false false false false 1
       | 12%positive => mkFunction "tvm_accept" false false false false false 1
       | 20%positive => mkFunction "bar" false false false false false 2
       | 30%positive => mkFunction "foo" false false false false false 3
       | _ => mkFunction "" false false false false false 1
       end).

(** ** Expressions *)

(** The expression nodes are declared in libsolidity/ast/AST.h, which is not
    among the sources; a node carries what [isAddressThis] reads of it: the
    identifiers with their name, the elementary type name expressions with
    the token of their type, and the calls. *)
Inductive Token : Set := TokenAddress | TokenOther (name : string).

Definition Token_eqb (a b : Token) : bool :=
  match a, b with
  | TokenAddress, TokenAddress => true
  | TokenOther x, TokenOther y => String.eqb x y
  | _, _ => false
  end.

#[warnings="-register-all"]
Inductive Expression : Type :=
| Identifier (name : string)
| ElementaryTypeNameExpression (token : Token)
| FunctionCallExpression (expression : Expression) (arguments : list Expression)
| OtherExpression (kind : string).

(** A [FunctionCall] node, as [isAddressThis] is handed one by pointer. *)
Record FunctionCall : Type := mkFunctionCall {
  fc_expression : Expression;
  fc_arguments : list Expression
}.

Definition to_Identifier (e : Expression) : option string :=
  match e with Identifier name => Some name | _ => None end.
Definition to_ElementaryTypeNameExpression (e : Expression) : option Token :=
  match e with ElementaryTypeNameExpression token => Some token | _ => None end.

(** [fcall] is [None] for the null pointer; the read of [arguments[0]] comes
    after the assertion that there is one. *)
Definition isAddressThis (fcall : option FunctionCall) : result bool :=
  match fcall with
  | None => Ok false
  | Some fcall =>
      let arguments := fc_arguments fcall in
      match to_ElementaryTypeNameExpression (fc_expression fcall) with
      | Some token =>
          if Token_eqb token TokenAddress then
            solAssert (negb (match arguments with [] => true | _ => false end)) "" ;;;
            match arguments with
            | arg0 :: _ =>
                match to_Identifier arg0 with
                | Some name => if String.eqb name "this" then Ok true else Ok false
                | None => Ok false
                end
            | [] => Ok false
            end
          else Ok false
      | None => Ok false
      end
  end.

(** ** Chromosomes of the optimiser-sequence search *)

Module Phaser.

(** A chromosome is a sequence of optimisation step names. *)
Record Chromosome : Set := mkChromosome { m_optimisationSteps : list string }.

(** What [operator<<] does to the stream: it returns, or [map::at] throws
    [std::out_of_range] with the stream as written so far. *)
Inductive Printed : Set :=
| Returned (stream : string)
| ThrewOutOfRange (stream : string).

Section Chromosome.

(** What this file takes from its headers: the steps of
    [OptimiserSuite::allSteps()] in the order of the map, the lookup
    [OptimiserSuite::stepNameToAbbreviationMap().at(name)] with what the
    stream writes for the abbreviation found, [None] when there is none, and
    the generator behind [uniformRandomInt(min, max)], which passes its state
    along. *)
Variable OptimiserStep : Type.
Variable allSteps : list (string * OptimiserStep).
Variable stepNameToAbbreviationMap : string -> option string.
Variable RandomState : Type.
Variable uniformRandomInt : N -> N -> RandomState -> N * RandomState.
Variable sizeof_size_t : N.

Definition allStepNames : list string :=
  fold_left (fun stepNames step => push_back stepNames (fst step)) allSteps [].

(** [stepNames[i]] is undefined for an index past the end: [None]. *)
Definition randomOptimisationStep (rng : RandomState)
  : option string * RandomState :=
  let stepNames := allStepNames in
  let (i, rng) :=
    uniformRandomInt 0 (size_decr sizeof_size_t
                                  (N.of_nat (List.length stepNames))) rng in
  (nth_error stepNames (N.to_nat i), rng).

(** The loop of [makeRandom], by the number of turns left. *)
Fixpoint makeRandom_loop (turns : nat) (steps : list string) (rng : RandomState)
  : option (list string) * RandomState :=
  match turns with
  | O => (Some steps, rng)
  | S turns =>
      let (step, rng) := randomOptimisationStep rng in
      match step with
      | Some step => makeRandom_loop turns (push_back steps step) rng
      | None => (None, rng)
      end
  end.

Definition makeRandom (_length : N) (rng : RandomState)
  : option Chromosome * RandomState :=
  let (steps, rng) := makeRandom_loop (N.to_nat _length) [] rng in
  (option_map mkChromosome steps, rng).

(** The loop of [operator<<]. *)
Fixpoint print_loop (steps : list string) (_stream : string) : Printed :=
  match steps with
  | [] => Returned _stream
  | stepName :: rest =>
      match stepNameToAbbreviationMap stepName with
      | Some abbreviation => print_loop rest (_stream ++ abbreviation)%string
      | None => ThrewOutOfRange _stream
      end
  end.

Definition print (_stream : string) (_chromosome : Chromosome) : Printed :=
  print_loop (m_optimisationSteps _chromosome) _stream.

End Chromosome.

(** The abbreviations of a sequence of steps, one after the other; a step
    without abbreviation adds nothing. *)
Definition abbreviations (abbreviationOf : string -> option string)
  (steps : list string) : string :=
  fold_right (fun stepName out =>
                match abbreviationOf stepName with
                | Some a => (a ++ out)%string
                | None => out
                end) "" steps.

(** A generator and tables to run the code on. *)
Definition sampleRandomInt (lo hi : N) (state : N) : N * N :=
  ((lo + state mod (hi - lo + 1))%N, (state + 1)%N).

Definition sampleSteps : list (string * unit) :=
  [("BlockFlattener", tt); ("CommonSubexpressionEliminator", tt);
   ("VarDeclInitializer", tt)].

Definition sampleAbbreviation (name : string) : option string :=
  if String.eqb name "BlockFlattener" then Some "f"
  else if String.eqb name "CommonSubexpressionEliminator" then Some "c"
  else if String.eqb name "VarDeclInitializer" then Some "d"
  else None.

End Phaser.

(** Base (1) <- Derived (2), with special functions, all of the empty
    declared name: Base defines a receive and a fallback function, Derived a
    receive function. *)
Definition rolesProgram : Program :=
  mkProgram
    (fun c =>
       match c with
       | 1%positive => mkContract "Base" [10; 11]%positive [1]%positive
       | 2%positive => mkContract "Derived" [20]%positive [2; 1]%positive
       | _ => mkContract "" [] []
       end)
    (fun f =>
       match f with
       | 10%positive => mkFunction "" false true false false false 1
       | 11%positive => mkFunction "" false false true false false 1
       | 20%positive => mkFunction "" false true false false false 2
       | _ => mkFunction "" false false false false false 1
       end).

(** * Properties *)

(** ** Strings *)

Lemma string_compare_refl (s : string) : String.compare s s = Eq.
Proof.
  induction s as [|a s IH]; simpl; [reflexivity|].
  unfold Ascii.compare. rewrite N.compare_refl. exact IH.
Qed.

Lemma string_compare_Eq (s t : string) : String.compare s t = Eq <-> s = t.
Proof.
  split; [apply String.compare_eq_iff | intros ->; apply string_compare_refl].
Qed.

Lemma length_append (s t : string) :
  String.length (s ++ t)%string = (String.length s + String.length t)%nat.
Proof. induction s; simpl; congruence. Qed.

Lemma substring_all (s : string) : substring 0 (String.length s) s = s.
Proof. induction s; simpl; congruence. Qed.

Lemma substring_skip (pre s : string) (n : nat) :
  substring (String.length pre) n (pre ++ s)%string = substring 0 n s.
Proof. induction pre; simpl; [destruct s, n|]; auto. Qed.

Lemma substring_split (s : string) (n : nat) :
  (n <= String.length s)%nat ->
  s = (substring 0 n s ++ substring n (String.length s - n) s)%string.
Proof.
  revert n; induction s as [|a s IH]; intros [|n] Hn; simpl in *;
    try reflexivity; try lia.
  - now rewrite substring_all.
  - f_equal. apply IH. lia.
Qed.

Lemma ends_with_true (str suffix : string) :
  ends_with str suffix = true <-> has_suffix str suffix.
Proof.
  unfold ends_with, has_suffix, Str.compare_at.
  destruct (Nat.ltb_spec (String.length str) (String.length suffix)) as [Hlt|Hle].
  - split; [discriminate|]. intros [pre ->]. rewrite length_append in Hlt. lia.
  - split.
    + destruct (String.compare _ suffix) eqn:E; try discriminate. intros _.
      apply string_compare_Eq in E.
      exists (substring 0 (String.length str - String.length suffix) str).
      pose proof (substring_split str
                    (String.length str - String.length suffix)) as Hs.
      replace (String.length str - (String.length str - String.length suffix))%nat
        with (String.length suffix) in Hs by lia.
      rewrite E in Hs. apply Hs. lia.
    + intros [pre ->]. rewrite length_append.
      replace (String.length pre + String.length suffix - String.length suffix)%nat
        with (String.length pre) by lia.
      rewrite substring_skip, substring_all, string_compare_refl. reflexivity.
Qed.

Lemma prefix_true (pre s : string) : prefix pre s = true <-> has_prefix s pre.
Proof.
  unfold has_prefix. revert s; induction pre as [|a pre IH]; intros s.
  - split; [intros _; now exists s | intros _; now destruct s].
  - destruct s as [|b s]; simpl.
    + split; [discriminate | intros [rest H]; discriminate].
    + destruct (Ascii.ascii_dec a b) as [->|Hab].
      * rewrite IH. split; intros [rest H]; exists rest; congruence.
      * split; [discriminate | intros [rest H]; congruence].
Qed.

Lemma prefix_empty (s : string) : prefix "" s = true.
Proof. now destruct s. Qed.

Lemma find_zero (s pat : string) :
  Str.find s pat = Some O <-> prefix pat s = true.
Proof.
  unfold Str.find. destruct s as [|b s].
  - destruct pat; simpl; split; congruence.
  - change (index 0 pat (String b s))
      with (if prefix pat (String b s) then Some O
            else match index 0 pat s with
                 | Some n => Some (S n)
                 | None => None
                 end).
    destruct (prefix pat (String b s)); [split; reflexivity|].
    destruct (index 0 pat s); split; discriminate.
Qed.

Lemma isTvmIntrinsic_true (name : string) :
  isTvmIntrinsic name = true <-> has_prefix name "tvm_".
Proof.
  rewrite <- prefix_true, <- find_zero. unfold isTvmIntrinsic.
  destruct (Str.find name "tvm_") as [[|n]|]; split; congruence.
Qed.

(** ** Function names and inlining *)

(** C8: the effective name of a function definition is the name of its
    contract for a constructor, then "receive", "fallback" and "onBounce" for
    these roles, tested in this order, and the declared name otherwise. *)
Theorem functionName_by_role (P : Program) (f : ptr) :
  let fd := functionAt P f in
  (isConstructor fd = true ->
   functionName P f = c_name (contractAt P (f_contract fd))) /\
  (isConstructor fd = false -> isReceive fd = true ->
   functionName P f = "receive") /\
  (isConstructor fd = false -> isReceive fd = false -> isFallback fd = true ->
   functionName P f = "fallback") /\
  (isConstructor fd = false -> isReceive fd = false -> isFallback fd = false ->
   isOnBounce fd = true -> functionName P f = "onBounce") /\
  (isConstructor fd = false -> isReceive fd = false -> isFallback fd = false ->
   isOnBounce fd = false -> functionName P f = f_name fd).
Proof.
  intros fd. unfold functionName. fold fd.
  repeat split; intros; repeat match goal with H : _ = _ |- _ => rewrite H end;
    reflexivity.
Qed.

(** C10: a function is taken for inlining exactly when it is a fallback, a
    receive or an onBounce function, or carries the inline flag, or has a
    declared name that ends with "_inline". *)
Theorem isFunctionForInlining_spec (f : FunctionDefinition) :
  let wanted := isFallback f = true \/ isReceive f = true \/
                isOnBounce f = true \/ isInline f = true \/
                has_suffix (f_name f) "_inline" in
  (wanted -> isFunctionForInlining f = true) /\
  (~ wanted -> isFunctionForInlining f = false).
Proof.
  intros wanted.
  assert (E : isFunctionForInlining f = true <-> wanted).
  { unfold wanted, isFunctionForInlining.
    rewrite !orb_true_iff, ends_with_true. tauto. }
  split; [apply E|].
  intros H. destruct (isFunctionForInlining f); [|reflexivity].
  elim H. apply E. reflexivity.
Qed.

(** ** Type encoding *)

Section TypeEncodingFacts.

Variable typeInfo : Type_ -> TypeInfo.
Variable stdAddrLength : Z.
Variable Type_toString : Type_ -> string.

Lemma isIn_address_contract (t : Type_) :
  isIn (category t) CatAddress CatContract = isAddressOrContractType t.
Proof. destruct t; reflexivity. Qed.

Lemma stringish_not_address (t : Type_) :
  isStringOrStringLiteralOrBytes t = true -> isAddressOrContractType t = false.
Proof. destruct t; cbn; intros H; auto; discriminate. Qed.

Lemma struct_not_address (t : Type_) (ms : list (string * Type_)) :
  to_StructType t = Some ms ->
  isAddressOrContractType t = false /\ isStringOrStringLiteralOrBytes t = false.
Proof. destruct t; simpl; try discriminate; auto. Qed.

Lemma int_add_in_range (a b : Z) :
  INT_MIN <= a + b <= INT_MAX -> int_add a b = Ok (a + b).
Proof.
  intros H. unfold int_add, in_int.
  rewrite (proj2 (Z.leb_le _ _) (proj1 H)), (proj2 (Z.leb_le _ _) (proj2 H)).
  reflexivity.
Qed.

Lemma int_add_overflow (a b : Z) : INT_MAX < a + b -> int_add a b = Undefined.
Proof.
  intros H. unfold int_add, in_int.
  rewrite (proj2 (Z.leb_gt _ _) H), andb_false_r. reflexivity.
Qed.

Lemma membersBits_cons (m : string * Type_) (ms : list (string * Type_)) :
  membersBits typeInfo (m :: ms) =
  numBits (typeInfo (snd m)) + membersBits typeInfo ms.
Proof. reflexivity. Qed.

Lemma membersBits_nonneg (ms : list (string * Type_)) :
  Forall (fun m => 0 <= numBits (typeInfo (snd m))) ms ->
  0 <= membersBits typeInfo ms.
Proof.
  induction 1 as [|m ms Hm _ IH]; [unfold membersBits; simpl; lia|].
  rewrite membersBits_cons. lia.
Qed.

(** The loop returns the sum when no partial sum leaves [int]. *)
Lemma members_all_numeric (ms : list (string * Type_)) (acc : Z) :
  Forall (fun m => isNumeric (typeInfo (snd m)) = true) ms ->
  Forall (fun m => 0 <= numBits (typeInfo (snd m))) ms ->
  INT_MIN <= acc -> acc + membersBits typeInfo ms <= INT_MAX ->
  lengthOfDictKey_members typeInfo ms acc = Ok (acc + membersBits typeInfo ms).
Proof.
  intros H; revert acc; induction H as [|m ms Hm _ IH]; intros acc Hpos Hlo Hhi.
  - simpl. f_equal. unfold membersBits; simpl. lia.
  - inversion Hpos as [|? ? Hm0 Hms]; subst.
    pose proof (membersBits_nonneg ms Hms) as Hnn.
    rewrite membersBits_cons in *.
    cbn [lengthOfDictKey_members]. rewrite Hm. cbn [solAssert bind].
    rewrite int_add_in_range by lia. cbn [bind].
    rewrite IH by (auto; lia). f_equal. lia.
Qed.

(** The loop fails at the first member that is not numeric. *)
Lemma members_some_not_numeric (ms : list (string * Type_)) (acc : Z) :
  Exists (fun m => isNumeric (typeInfo (snd m)) = false) ms ->
  Forall (fun m => 0 <= numBits (typeInfo (snd m))) ms ->
  INT_MIN <= acc -> acc + membersBits typeInfo ms <= INT_MAX ->
  fails (lengthOfDictKey_members typeInfo ms acc).
Proof.
  intros H; revert acc; induction H as [m ms Hm|m ms _ IH];
    intros acc Hpos Hlo Hhi; cbn [lengthOfDictKey_members].
  - rewrite Hm. cbn. now exists "".
  - inversion Hpos as [|? ? Hm0 Hms]; subst.
    pose proof (membersBits_nonneg ms Hms) as Hnn.
    rewrite membersBits_cons in *.
    destruct (isNumeric (typeInfo (snd m))); cbn [solAssert bind];
      [|now exists ""].
    rewrite int_add_in_range by lia. cbn [bind]. apply IH; auto; lia.
Qed.

(** The loop overflows its [int] when the sum does not fit. *)
Lemma members_overflow (ms : list (string * Type_)) (acc : Z) :
  Forall (fun m => isNumeric (typeInfo (snd m)) = true) ms ->
  Forall (fun m => 0 <= numBits (typeInfo (snd m))) ms ->
  INT_MIN <= acc <= INT_MAX -> INT_MAX < acc + membersBits typeInfo ms ->
  lengthOfDictKey_members typeInfo ms acc = Undefined.
Proof.
  intros H; revert acc; induction H as [|m ms Hm _ IH]; intros acc Hpos Hacc Hhi.
  - unfold membersBits in Hhi; simpl in Hhi. lia.
  - inversion Hpos as [|? ? Hm0 Hms]; subst.
    rewrite membersBits_cons in *.
    cbn [lengthOfDictKey_members]. rewrite Hm. cbn [solAssert bind].
    destruct (Z_le_gt_dec (acc + numBits (typeInfo (snd m))) INT_MAX) as [Hle|Hgt].
    + rewrite int_add_in_range by lia. cbn [bind]. apply IH; auto; lia.
    + rewrite int_add_overflow by lia. reflexivity.
Qed.

End TypeEncodingFacts.

Lemma isStringOrStringLiteralOrBytes_true (t : Type_) :
  isStringOrStringLiteralOrBytes t = true <-> stringLike t.
Proof.
  unfold stringLike. destruct t as [| | | | | |[]| | | | | | |]; cbn;
    intuition (discriminate || auto).
Qed.

Lemma isStringOrStringLiteralOrBytes_false (t : Type_) :
  isStringOrStringLiteralOrBytes t = false <-> ~ stringLike t.
Proof.
  rewrite <- isStringOrStringLiteralOrBytes_true.
  destruct (isStringOrStringLiteralOrBytes t); split; congruence.
Qed.

(** C7: the dictionary key kind is "I" for a signed numeric type, "U" for an
    unsigned one, "U" for a byte array, string or string literal, and the
    empty string (a slice key) for every other type. *)
Theorem typeToDictChar_spec (typeInfo : Type_ -> TypeInfo) (keyType : Type_) :
  let ti := typeInfo keyType in
  (isNumeric ti = true -> isSigned ti = true ->
   typeToDictChar typeInfo keyType = "I") /\
  (isNumeric ti = true -> isSigned ti = false ->
   typeToDictChar typeInfo keyType = "U") /\
  (isNumeric ti = false -> stringLike keyType ->
   typeToDictChar typeInfo keyType = "U") /\
  (isNumeric ti = false -> ~ stringLike keyType ->
   typeToDictChar typeInfo keyType = "").
Proof.
  intros ti. unfold typeToDictChar. fold ti.
  rewrite <- isStringOrStringLiteralOrBytes_false,
          <- isStringOrStringLiteralOrBytes_true.
  repeat split; intros; repeat match goal with H : _ = _ |- _ => rewrite H end;
    reflexivity.
Qed.

(** C4: the dictionary key length, by priority: the standard address length
    for an address or contract type; the type's own width for a numeric type;
    256 for a byte array, string or string literal; for a struct, whose
    members' widths add up within [int], the sum of the members' widths when
    all are numeric and a failure when one is not; a failure for every other
    type. *)
Theorem lengthOfDictKey_by_priority (typeInfo : Type_ -> TypeInfo)
  (stdAddrLength : Z) (key : Type_) :
  let len := lengthOfDictKey typeInfo stdAddrLength key in
  let other := category key <> CatAddress /\ category key <> CatContract in
  let notNumeric := isNumeric (typeInfo key) = false in
  (category key = CatAddress \/ category key = CatContract ->
   len = Ok stdAddrLength) /\
  (other -> isNumeric (typeInfo key) = true ->
   len = Ok (numBits (typeInfo key))) /\
  (notNumeric -> stringLike key -> len = Ok 256) /\
  (forall members, notNumeric -> key = StructType members ->
   membersFitInt typeInfo members ->
   Forall (fun m => isNumeric (typeInfo (snd m)) = true) members ->
   len = Ok (membersBits typeInfo members)) /\
  (forall members, notNumeric -> key = StructType members ->
   membersFitInt typeInfo members ->
   Exists (fun m => isNumeric (typeInfo (snd m)) = false) members ->
   fails len) /\
  (other -> notNumeric -> ~ stringLike key -> category key <> CatStruct ->
   fails len).
Proof.
  intros len other notNumeric. unfold len, other, notNumeric, lengthOfDictKey.
  repeat split.
  - intros [H|H]; rewrite H; reflexivity.
  - intros [Ha Hc] Hn.
    destruct key; cbn in *; try congruence; rewrite Hn; reflexivity.
  - intros Hn Hs. apply isStringOrStringLiteralOrBytes_true in Hs.
    rewrite isIn_address_contract, (stringish_not_address _ Hs).
    rewrite Hn, Hs. reflexivity.
  - intros members Hn -> [Hpos Hfit] Hall. cbn. rewrite Hn.
    rewrite (members_all_numeric typeInfo members 0 Hall Hpos);
      [reflexivity | unfold INT_MIN; lia | lia].
  - intros members Hn -> [Hpos Hfit] Hex. cbn. rewrite Hn.
    apply members_some_not_numeric; auto; unfold INT_MIN; lia.
  - intros [Ha Hc] Hn Hs Hst. apply isStringOrStringLiteralOrBytes_false in Hs.
    rewrite Hn, Hs.
    destruct key; cbn in *; try congruence; now exists "".
Qed.

Lemma storeIntegralOrAddress_numeric_eq (typeInfo : Type_ -> TypeInfo)
  (Type_toString : Type_ -> string) (type : Type_) (reverse : bool) :
  isAddressOrContractType type = false ->
  isNumeric (typeInfo type) = true ->
  storeIntegralOrAddress typeInfo Type_toString type reverse =
  Ok (storeMnemonic (isSigned (typeInfo type)) reverse ++ " "
      ++ Str.toString (numBits (typeInfo type)))%string.
Proof.
  intros Ha Hn. unfold storeIntegralOrAddress, storeMnemonic.
  rewrite Ha, Hn.
  destruct (isSigned (typeInfo type)), reverse; reflexivity.
Qed.

(** C1, as the code has it: for a numeric type that is no address or contract
    type the store instruction never fails; it is "STI" for a signed and "STU"
    for an unsigned type, followed by "R" exactly when the operands are
    reversed, then a space and the bit width in decimal. *)
Theorem storeIntegralOrAddress_numeric (typeInfo : Type_ -> TypeInfo)
  (Type_toString : Type_ -> string) (type : Type_) (reverse : bool) :
  isAddressOrContractType type = false ->
  isIntegralType typeInfo type = true ->
  exists cmd,
    storeIntegralOrAddress typeInfo Type_toString type reverse = Ok cmd /\
    cmd = (storeMnemonic (isSigned (typeInfo type)) reverse ++ " "
           ++ Str.toString (numBits (typeInfo type)))%string /\
    (has_prefix cmd "STI" <-> isSigned (typeInfo type) = true) /\
    (has_prefix cmd "STU" <-> isSigned (typeInfo type) = false) /\
    (has_prefix cmd "STIR " \/ has_prefix cmd "STUR " <-> reverse = true) /\
    (has_prefix cmd "STI " \/ has_prefix cmd "STU " <-> reverse = false).
Proof.
  intros Ha Hn. eexists. split.
  - apply storeIntegralOrAddress_numeric_eq; assumption.
  - split; [reflexivity|].
    rewrite <- !prefix_true. unfold storeMnemonic.
    destruct (isSigned (typeInfo type)), reverse; cbn;
      rewrite ?prefix_empty; intuition (discriminate || auto).
Qed.

Lemma storeIntegralOrAddress_numeric_witness :
  exists cmd,
    storeIntegralOrAddress integerTypeInfo sample_toString (IntegerType true 8) true
    = Ok cmd /\ cmd = "STIR 8" /\
    (has_prefix cmd "STI" <-> true = true) /\
    (has_prefix cmd "STU" <-> true = false) /\
    (has_prefix cmd "STIR " \/ has_prefix cmd "STUR " <-> true = true) /\
    (has_prefix cmd "STI " \/ has_prefix cmd "STU " <-> true = false).
Proof.
  exact (storeIntegralOrAddress_numeric integerTypeInfo sample_toString
           (IntegerType true 8) true eq_refl eq_refl).
Defined.

(** C1 as worded fails: with the operands reversed the letter R follows the
    mnemonic, not the bit width ("STIR 8", not "STI 8R"). *)
Lemma storeIntegralOrAddress_not_as_worded :
  ~ (forall (typeInfo : Type_ -> TypeInfo) (Type_toString : Type_ -> string)
            (type : Type_) (reverse : bool),
        isAddressOrContractType type = false ->
        isIntegralType typeInfo type = true ->
        storeIntegralOrAddress typeInfo Type_toString type reverse =
        Ok (storeInstruction_as_worded (isSigned (typeInfo type))
                                       (numBits (typeInfo type)) reverse)).
Proof.
  intros H.
  specialize (H integerTypeInfo sample_toString (IntegerType true 8) true
                eq_refl eq_refl).
  discriminate H.
Qed.

(** ** Enum width *)

Lemma bitsForEnum_loop_step (v : N) (b : Z) :
  bitsForEnum_loop v b =
  if N.eqb (N.shiftr v 8) 0 then b + 1
  else bitsForEnum_loop (N.shiftr v 8) (b + 1).
Proof.
  rewrite (bitsForEnum_loop_equation_1 v b).
  destruct (N.eq_dec (N.shiftr v 8) 0) as [E|E].
  - rewrite (proj2 (N.eqb_eq _ _) E). reflexivity.
  - rewrite (proj2 (N.eqb_neq _ _) E). reflexivity.
Qed.

Lemma shiftr8_lt (v : N) : N.shiftr v 8 <> 0%N -> (N.shiftr v 8 < v)%N.
Proof.
  rewrite N.shiftr_div_pow2. intros H.
  assert (v <> 0)%N by (intros ->; now apply H).
  apply N.div_lt; lia.
Qed.

Lemma shiftr8_Z (v : N) : Z.of_N (N.shiftr v 8) = Z.of_N v / 256.
Proof. rewrite N.shiftr_div_pow2, N2Z.inj_div. reflexivity. Qed.

(** The loop adds to its counter the number of turns it takes. *)
Lemma bitsForEnum_loop_acc (v : N) (b : Z) :
  bitsForEnum_loop v b = b + bitsForEnum_loop v 0.
Proof.
  revert b. induction v as [v IH] using (well_founded_induction N.lt_wf_0).
  intros b. rewrite (bitsForEnum_loop_step v b), (bitsForEnum_loop_step v 0).
  destruct (N.eqb_spec (N.shiftr v 8) 0) as [E|E]; [lia|].
  rewrite (IH _ (shiftr8_lt v E) (b + 1)), (IH _ (shiftr8_lt v E) (0 + 1)). lia.
Qed.

Lemma bitsForEnum_loop_pos (v : N) : 1 <= bitsForEnum_loop v 0.
Proof.
  induction v as [v IH] using (well_founded_induction N.lt_wf_0).
  rewrite bitsForEnum_loop_step.
  destruct (N.eqb_spec (N.shiftr v 8) 0) as [E|E]; [lia|].
  rewrite bitsForEnum_loop_acc. specialize (IH _ (shiftr8_lt v E)). lia.
Qed.

Lemma pow256_succ (k : Z) : 0 <= k -> 2 ^ (8 * (1 + k)) = 256 * 2 ^ (8 * k).
Proof.
  intros Hk. replace (8 * (1 + k)) with (8 + 8 * k) by lia.
  rewrite Z.pow_add_r by lia. reflexivity.
Qed.

(** The width found covers the value... *)
Lemma bitsForEnum_loop_upper (v : N) :
  Z.of_N v < 2 ^ (8 * bitsForEnum_loop v 0).
Proof.
  induction v as [v IH] using (well_founded_induction N.lt_wf_0).
  rewrite bitsForEnum_loop_step.
  destruct (N.eqb_spec (N.shiftr v 8) 0) as [E|E].
  - apply (f_equal Z.of_N) in E. rewrite shiftr8_Z in E.
    change (8 * (0 + 1)) with 8. change (2 ^ 8) with 256.
    destruct (Z_lt_le_dec (Z.of_N v) 256) as [|Hge]; [assumption|].
    assert (1 <= Z.of_N v / 256) by (apply Z.div_le_lower_bound; lia).
    change (Z.of_N 0) with 0 in E. lia.
  - rewrite bitsForEnum_loop_acc.
    specialize (IH _ (shiftr8_lt v E)). rewrite shiftr8_Z in IH.
    pose proof (bitsForEnum_loop_pos (N.shiftr v 8)) as Hp.
    replace (0 + 1 + bitsForEnum_loop (N.shiftr v 8) 0)
      with (1 + bitsForEnum_loop (N.shiftr v 8) 0) by lia.
    rewrite pow256_succ by lia.
    pose proof (Z.div_mod (Z.of_N v) 256 ltac:(lia)).
    pose proof (Z.mod_pos_bound (Z.of_N v) 256 ltac:(lia)). lia.
Qed.

(** ... and no smaller number of bytes does. *)
Lemma bitsForEnum_loop_least (v : N) (k : Z) :
  1 <= k -> Z.of_N v < 2 ^ (8 * k) -> bitsForEnum_loop v 0 <= k.
Proof.
  revert k. induction v as [v IH] using (well_founded_induction N.lt_wf_0).
  intros k Hk Hv. rewrite bitsForEnum_loop_step.
  destruct (N.eqb_spec (N.shiftr v 8) 0) as [E|E]; [lia|].
  rewrite bitsForEnum_loop_acc.
  assert (Hq : 1 <= Z.of_N v / 256).
  { assert (Z.of_N (N.shiftr v 8) <> 0) by lia. rewrite shiftr8_Z in *.
    pose proof (Z.div_pos (Z.of_N v) 256). lia. }
  assert (Hk2 : 2 <= k).
  { destruct (Z.eq_dec k 1) as [->|]; [|lia].
    change (2 ^ (8 * 1)) with 256 in Hv.
    assert (Z.of_N v / 256 = 0) by (apply Z.div_small; lia). lia. }
  specialize (IH _ (shiftr8_lt v E) (k - 1)). rewrite shiftr8_Z in IH.
  assert (Z.of_N v / 256 < 2 ^ (8 * (k - 1))).
  { apply Z.div_lt_upper_bound; [lia|].
    rewrite <- pow256_succ by lia. replace (1 + (k - 1)) with k by lia.
    exact Hv. }
  lia.
Qed.

Lemma bitsForEnum_loop_mono (v w : N) :
  (v <= w)%N -> bitsForEnum_loop v 0 <= bitsForEnum_loop w 0.
Proof.
  intros Hvw. apply bitsForEnum_loop_least; [apply bitsForEnum_loop_pos|].
  pose proof (bitsForEnum_loop_upper w). lia.
Qed.

Lemma size_max_succ_Z (sz : N) :
  Z.of_N (size_max_succ sz) = 2 ^ (8 * Z.of_N sz).
Proof. unfold size_max_succ. rewrite N2Z.inj_pow, N2Z.inj_mul. reflexivity. Qed.

Lemma size_max_succ_pos (sz : N) : (0 < size_max_succ sz)%N.
Proof.
  unfold size_max_succ. 
  assert (2 ^ (8 * sz) <> 0)%N by (apply N.pow_nonzero; lia). lia.
Qed.

(** Within the range of [size_t] the decrement of a count of at least one is
    the predecessor. *)
Lemma size_decr_pred (sz n : N) :
  (1 <= n < size_max_succ sz)%N -> size_decr sz n = (n - 1)%N.
Proof.
  intros Hn. unfold size_decr.
  replace (n + (size_max_succ sz - 1))%N
    with ((n - 1) + 1 * size_max_succ sz)%N by lia.
  rewrite N.Div0.mod_add. apply N.mod_small. lia.
Qed.

(** The decrement of zero wraps around to the largest value. *)
Lemma size_decr_zero (sz : N) : size_decr sz 0 = (size_max_succ sz - 1)%N.
Proof.
  unfold size_decr. pose proof (size_max_succ_pos sz).
  rewrite N.add_0_l. apply N.mod_small. lia.
Qed.

Lemma size_max_succ_ge (sz : N) : (2 <= sz)%N -> (65536 <= size_max_succ sz)%N.
Proof.
  intros H. unfold size_max_succ. change 65536%N with (2 ^ 16)%N.
  apply N.pow_le_mono_r; lia.
Qed.

(** C3: for a count of values [n >= 1] that fits [size_t] (of at least 16
    bits), the enum width is a multiple of 8, does not decrease with [n], and
    [2 ^ width > n - 1]; the widths of 1, 255 and 256 values are 8 and the
    width of 257 values is 16. *)
Theorem bitsForEnum_spec (sizeof_size_t n : N) :
  (2 <= sizeof_size_t)%N ->
  (1 <= n < size_max_succ sizeof_size_t)%N ->
  bitsForEnum sizeof_size_t n mod 8 = 0 /\
  (forall m, (1 <= m <= n)%N ->
             bitsForEnum sizeof_size_t m <= bitsForEnum sizeof_size_t n) /\
  2 ^ bitsForEnum sizeof_size_t n > Z.of_N n - 1 /\
  bitsForEnum sizeof_size_t 1 = 8 /\
  bitsForEnum sizeof_size_t 255 = 8 /\
  bitsForEnum sizeof_size_t 256 = 8 /\
  bitsForEnum sizeof_size_t 257 = 16.
Proof.
  intros Hsz Hn. pose proof (size_max_succ_ge _ Hsz) as Hmax.
  unfold bitsForEnum; cbv zeta.
  split; [|split; [|split]].
  - rewrite Z.mul_comm. apply Z.mod_mul. lia.
  - intros m Hm. rewrite !size_decr_pred by lia.
    apply Z.mul_le_mono_nonneg_l; [lia|]. apply bitsForEnum_loop_mono. lia.
  - rewrite size_decr_pred by lia.
    pose proof (bitsForEnum_loop_upper (n - 1)) as Hu.
    rewrite N2Z.inj_sub in Hu by lia. change (Z.of_N 1) with 1 in Hu. lia.
  - rewrite !size_decr_pred by lia. repeat split; reflexivity.
Qed.

Lemma bitsForEnum_spec_witness :
  bitsForEnum 8 300 mod 8 = 0 /\
  (forall m, (1 <= m <= 300)%N -> bitsForEnum 8 m <= bitsForEnum 8 300) /\
  2 ^ bitsForEnum 8 300 > Z.of_N 300 - 1 /\
  bitsForEnum 8 1 = 8 /\ bitsForEnum 8 255 = 8 /\
  bitsForEnum 8 256 = 8 /\ bitsForEnum 8 257 = 16.
Proof.
  apply (bitsForEnum_spec 8 300).
  - discriminate.
  - split; [discriminate | reflexivity].
Defined.

(** C9: a count of zero is not rejected: the decrement wraps around to the
    largest [size_t] value and the width is [8 * sizeof(size_t)], 64 bits for
    a [size_t] of 8 bytes. *)
Theorem bitsForEnum_zero (sizeof_size_t : N) :
  (1 <= sizeof_size_t)%N ->
  size_decr sizeof_size_t 0 = (size_max_succ sizeof_size_t - 1)%N /\
  bitsForEnum sizeof_size_t 0 = 8 * Z.of_N sizeof_size_t.
Proof.
  intros Hsz. split; [apply size_decr_zero|].
  unfold bitsForEnum; cbv zeta. rewrite size_decr_zero. f_equal.
  set (v := (size_max_succ sizeof_size_t - 1)%N).
  assert (Hv : Z.of_N v = 2 ^ (8 * Z.of_N sizeof_size_t) - 1).
  { unfold v. pose proof (size_max_succ_pos sizeof_size_t).
    rewrite N2Z.inj_sub by lia. now rewrite size_max_succ_Z. }
  apply Z.le_antisymm.
  - apply bitsForEnum_loop_least; lia.
  - pose proof (bitsForEnum_loop_upper v) as Hu.
    pose proof (bitsForEnum_loop_pos v) as Hp.
    destruct (Z_lt_le_dec (bitsForEnum_loop v 0) (Z.of_N sizeof_size_t))
      as [Hlt|]; [exfalso|assumption].
    assert (2 ^ (8 * bitsForEnum_loop v 0) <= 2 ^ (8 * Z.of_N sizeof_size_t - 8)).
    { apply Z.pow_le_mono_r; lia. }
    assert (2 ^ (8 * Z.of_N sizeof_size_t) =
            256 * 2 ^ (8 * Z.of_N sizeof_size_t - 8)).
    { replace (8 * Z.of_N sizeof_size_t) with (8 + (8 * Z.of_N sizeof_size_t - 8))
        at 1 by lia.
      rewrite Z.pow_add_r by lia. reflexivity. }
    assert (0 < 2 ^ (8 * Z.of_N sizeof_size_t - 8)) by (apply Z.pow_pos_nonneg; lia).
    lia.
Qed.

Lemma bitsForEnum_zero_witness :
  size_decr 8 0 = 18446744073709551615%N /\ bitsForEnum 8 0 = 64.
Proof. apply (bitsForEnum_zero 8). discriminate. Defined.

(** ** Vectors *)

Section Vectors.

Context {A : Type}.
Implicit Types (l : list A) (p : A -> bool).

Lemma back_app_one l (x : A) : back (l ++ [x]) = Some x.
Proof. unfold back. rewrite rev_app_distr. reflexivity. Qed.

Lemma back_cons (x : A) l :
  back (x :: l) = match back l with Some y => Some y | None => Some x end.
Proof. unfold back. simpl. destruct (rev l); reflexivity. Qed.

Lemma back_None l : back l = None <-> l = [].
Proof.
  unfold back. split; [|intros ->; reflexivity].
  destruct (rev l) eqn:E; [|discriminate]. intros _.
  rewrite <- (rev_involutive l), E. reflexivity.
Qed.

Lemma filter_nil p l : filter p l = [] <-> forall g, In g l -> p g = false.
Proof.
  induction l as [|x l IH]; simpl.
  - split; [intros _ g [] | reflexivity].
  - destruct (p x) eqn:E.
    + split; [discriminate|]. intros H. specialize (H x (or_introl eq_refl)).
      congruence.
    + rewrite IH. split.
      * intros H g [<-|Hg]; auto.
      * intros H g Hg. apply H. now right.
Qed.

(** The last element of a filtered vector is the last element of the vector
    that passes the filter. *)
Lemma back_filter_Some p l (w : A) :
  back (filter p l) = Some w <->
  exists l1 l2, l = l1 ++ w :: l2 /\ p w = true /\
                forall g, In g l2 -> p g = false.
Proof.
  split.
  - induction l as [|x l IH]; [discriminate|]. simpl.
    destruct (back (filter p l)) as [y|] eqn:E.
    + intros H. assert (y = w) as ->.
      { destruct (p x); [rewrite back_cons, E in H|rewrite E in H]; congruence. }
      destruct (IH eq_refl) as (l1 & l2 & -> & Hw & Hl2).
      exists (x :: l1), l2. auto.
    + apply back_None in E. destruct (p x) eqn:Ex.
      * rewrite E. intros [= <-]. exists [], l. repeat split; auto.
        now apply filter_nil.
      * rewrite E. discriminate.
  - intros (l1 & l2 & -> & Hw & Hl2).
    rewrite filter_app. simpl. rewrite Hw.
    rewrite (proj2 (filter_nil p l2) Hl2). apply back_app_one.
Qed.

Lemma back_filter_None p l :
  back (filter p l) = None <-> forall g, In g l -> p g = false.
Proof. rewrite back_None. apply filter_nil. Qed.

(** A loop that pushes [g x] for every [x] builds the concatenation. *)
Lemma fold_left_push {B : Type} (g : B -> list A) (xs : list B) l :
  fold_left (fun acc x => acc ++ g x) xs l = l ++ flat_map g xs.
Proof.
  revert l; induction xs as [|x xs IH]; intros l; simpl.
  - now rewrite app_nil_r.
  - rewrite IH. now rewrite app_assoc.
Qed.

(** A loop that pushes the elements that pass a test builds the filter. *)
Lemma fold_left_filter p (xs : list A) l :
  fold_left (fun acc x => if p x then push_back acc x else acc) xs l =
  l ++ filter p xs.
Proof.
  revert l; induction xs as [|x xs IH]; intros l; simpl.
  - now rewrite app_nil_r.
  - rewrite IH. unfold push_back. destruct (p x); [|reflexivity].
    now rewrite <- app_assoc.
Qed.

End Vectors.

(** ** Super contract *)

Section SuperContract.

Variable P : Program.

Lemma getFunction_loop_None (fs : list ptr) (fname : string) :
  getFunction_loop P fs fname = None <->
  forall f, In f fs -> f_name (functionAt P f) <> fname.
Proof.
  induction fs as [|f fs IH]; simpl.
  - split; [intros _ f [] | reflexivity].
  - destruct (String.eqb_spec (f_name (functionAt P f)) fname) as [E|E].
    + split; [discriminate|]. intros H. now elim (H f (or_introl eq_refl)).
    + rewrite IH. split.
      * intros H g [<-|Hg]; auto.
      * intros H g Hg. apply H. now right.
Qed.

Lemma getFunction_loop_Some (fs : list ptr) (fname : string) (f : ptr) :
  getFunction_loop P fs fname = Some f ->
  In f fs /\ f_name (functionAt P f) = fname.
Proof.
  induction fs as [|g fs IH]; simpl; [discriminate|].
  destruct (String.eqb_spec (f_name (functionAt P g)) fname) as [Eg|Eg].
  - intros [= <-]. auto.
  - intros H. destruct (IH H). auto.
Qed.

Lemma declaresb_true (fname : string) (c : ptr) :
  declaresb P fname c = true <-> declares P c fname.
Proof.
  unfold declaresb, declares, getFunction.
  destruct (getFunction_loop P _ fname) as [f|] eqn:E.
  - split; [intros _|reflexivity].
    exists f. now apply getFunction_loop_Some.
  - split; [discriminate|]. intros (f & Hin & Hf).
    now elim (proj1 (getFunction_loop_None _ _) E f Hin).
Qed.

Lemma declaresb_false (fname : string) (c : ptr) :
  declaresb P fname c = false <-> ~ declares P c fname.
Proof.
  rewrite <- declaresb_true. destruct (declaresb P fname c); split; congruence.
Qed.

(** The loop up to its [break]: the candidate it holds is the last contract
    before [currentContract] that declares the name. *)
Lemma getSuperContract_loop_break (pre post : list ptr) (cur : ptr)
  (fname : string) (prev : option ptr) :
  ~ In cur pre ->
  getSuperContract_loop P (pre ++ cur :: post) cur fname prev =
  match back (filter (declaresb P fname) pre) with
  | Some c => Some c
  | None => prev
  end.
Proof.
  revert prev; induction pre as [|c pre IH]; intros prev Hnot; simpl.
  - now rewrite Pos.eqb_refl.
  - destruct (Pos.eqb_spec c cur) as [->|Hc]; [elim Hnot; now left|].
    rewrite IH by (intros H; apply Hnot; now right).
    unfold declaresb at 2. 
    destruct (getFunction P c fname); [rewrite back_cons|];
      destruct (back (filter (declaresb P fname) pre)); reflexivity.
Qed.

(** Without a [break] the loop runs over the whole chain. *)
Lemma getSuperContract_loop_whole (chain : list ptr) (cur : ptr)
  (fname : string) (prev : option ptr) :
  ~ In cur chain ->
  getSuperContract_loop P chain cur fname prev =
  match back (filter (declaresb P fname) chain) with
  | Some c => Some c
  | None => prev
  end.
Proof.
  revert prev; induction chain as [|c chain IH]; intros prev Hnot; simpl.
  - reflexivity.
  - destruct (Pos.eqb_spec c cur) as [->|Hc]; [elim Hnot; now left|].
    rewrite IH by (intros H; apply Hnot; now right).
    unfold declaresb at 2.
    destruct (getFunction P c fname); [rewrite back_cons|];
      destruct (back (filter (declaresb P fname) chain)); reflexivity.
Qed.

End SuperContract.

Lemma last_declaring_back (P : Program) (l : list ptr) (fname : string) (c : ptr) :
  back (filter (declaresb P fname) l) = Some c <-> last_declaring P l fname c.
Proof.
  rewrite back_filter_Some. unfold last_declaring.
  split; intros (l1 & l2 & Hl & Hc & Hl2); exists l1, l2;
    (split; [exact Hl|split]).
  - now apply declaresb_true.
  - intros c' Hc'. apply declaresb_false. auto.
  - now apply declaresb_true.
  - intros c' Hc'. apply declaresb_false. auto.
Qed.

(** C2: when [currentContract] stands in the base-first chain of
    [mainContract] after the contracts [pre], [getSuperContract] returns the
    last contract of [pre] that declares a function of that name, and returns
    nothing exactly when no contract of [pre] declares one, whatever
    [currentContract] and the contracts after it declare. *)
Theorem getSuperContract_spec (P : Program) (currentContract mainContract : ptr)
  (fname : string) (pre post : list ptr) :
  getContractsChain P mainContract = pre ++ currentContract :: post ->
  ~ In currentContract pre ->
  (forall c, getSuperContract P currentContract mainContract fname = Some c <->
             last_declaring P pre fname c) /\
  (getSuperContract P currentContract mainContract fname = None <->
   forall c, In c pre -> ~ declares P c fname).
Proof.
  intros Hchain Hnot. unfold getSuperContract.
  rewrite Hchain, getSuperContract_loop_break by assumption.
  split.
  - intros c. rewrite <- last_declaring_back.
    destruct (back (filter (declaresb P fname) pre)); split; congruence.
  - transitivity (back (filter (declaresb P fname) pre) = None).
    + destruct (back (filter (declaresb P fname) pre)); split; congruence.
    + rewrite back_filter_None. split; intros H c Hc.
      * apply declaresb_false. auto.
      * apply declaresb_false. auto.
Qed.

Lemma getSuperContract_spec_witness :
  (forall c, getSuperContract sampleProgram 3 3 "foo" = Some c <->
             last_declaring sampleProgram [1; 2]%positive "foo" c) /\
  (getSuperContract sampleProgram 3 3 "foo" = None <->
   forall c, In c [1; 2]%positive -> ~ declares sampleProgram c "foo").
Proof.
  apply (getSuperContract_spec sampleProgram 3 3 "foo" [1; 2]%positive []).
  - reflexivity.
  - simpl. intros [H|[H|[]]]; discriminate H.
Defined.

(** ** Functions of a contract *)

Section ContractFunctions.

Variable P : Program.

Lemma pairs_of_contract (c : ptr) (fs : list ptr) (r : list (ptr * ptr)) :
  fold_left (fun result f => push_back result (f, c)) fs r =
  r ++ map (fun f => (f, c)) fs.
Proof.
  revert r; induction fs as [|f fs IH]; intros r; simpl.
  - now rewrite app_nil_r.
  - rewrite IH. unfold push_back. now rewrite <- app_assoc.
Qed.

Lemma pairs_of_chain (chain : list ptr) (r : list (ptr * ptr)) :
  fold_left
    (fun result c =>
       fold_left (fun result f => push_back result (f, c))
                 (definedFunctions (contractAt P c)) result) chain r =
  r ++ flat_map (fun c => map (fun f => (f, c))
                              (definedFunctions (contractAt P c))) chain.
Proof.
  revert r; induction chain as [|c chain IH]; intros r; simpl.
  - now rewrite app_nil_r.
  - rewrite pairs_of_contract, IH. now rewrite app_assoc.
Qed.

(** The pairs list the declarations of the chain, base first. *)
Lemma getContractFunctionPairs_fst (contract : ptr) :
  map fst (getContractFunctionPairs P contract) = chainFunctions P contract.
Proof.
  unfold getContractFunctionPairs, chainFunctions, getContractsChain.
  rewrite pairs_of_chain. cbn [app].
  induction (rev (linearizedBaseContracts (contractAt P contract)))
    as [|c chain IH]; simpl.
  - reflexivity.
  - rewrite map_app, IH, map_map. simpl. now rewrite map_id.
Qed.

(** The name the code computes is the effective name of the role. *)
Lemma functionName_effectiveName (f : ptr) :
  functionName P f = effectiveName P f.
Proof.
  unfold functionName, effectiveName, roleOf.
  destruct (isConstructor (functionAt P f)); [reflexivity|].
  destruct (isReceive (functionAt P f)); [reflexivity|].
  destruct (isFallback (functionAt P f)); [reflexivity|].
  destruct (isOnBounce (functionAt P f)); reflexivity.
Qed.

Lemma named_loop (funcName : string) (pairs : list (ptr * ptr)) (r : list ptr) :
  fold_left
    (fun result (pair : ptr * ptr) =>
       let functionDefinition := fst pair in
       if isConstructor (functionAt P functionDefinition) then result
       else if String.eqb (functionName P functionDefinition) funcName
            then push_back result functionDefinition
            else result) pairs r =
  r ++ filter (candidateb P funcName) (map fst pairs).
Proof.
  revert r; induction pairs as [|[f c] pairs IH]; intros r; simpl.
  - now rewrite app_nil_r.
  - rewrite IH. unfold candidateb at 2, push_back.
    destruct (isConstructor (functionAt P f)); simpl; [reflexivity|].
    destruct (String.eqb (functionName P f) funcName); [|reflexivity].
    now rewrite <- app_assoc.
Qed.

(** The declarations of a given effective name: the candidates of the chain,
    base first. *)
Lemma getContractFunctionsNamed_filter (contract : ptr) (funcName : string) :
  getContractFunctionsNamed P contract funcName =
  filter (candidateb P funcName) (chainFunctions P contract).
Proof.
  unfold getContractFunctionsNamed.
  now rewrite named_loop, getContractFunctionPairs_fst.
Qed.

Lemma candidateb_true (name : string) (f : ptr) :
  candidateb P name f = true <-> candidate P name f.
Proof.
  unfold candidateb, candidate.
  rewrite andb_true_iff, negb_true_iff, String.eqb_eq.
  rewrite functionName_effectiveName. reflexivity.
Qed.

Lemma candidateb_false (name : string) (f : ptr) :
  candidateb P name f = false <-> ~ candidate P name f.
Proof.
  rewrite <- candidateb_true. destruct (candidateb P name f); split; congruence.
Qed.

(** The winner of a name, as the code finds it, is its most derived
    declaration. *)
Lemma mostDerived_back (contract : ptr) (name : string) (w : ptr) :
  back (getContractFunctionsNamed P contract name) = Some w <->
  mostDerived P contract name w.
Proof.
  rewrite getContractFunctionsNamed_filter, back_filter_Some.
  unfold mostDerived.
  split; intros (l1 & l2 & Hl & Hw & Hl2); exists l1, l2;
    (split; [exact Hl|split]).
  - now apply candidateb_true.
  - intros g Hg. apply candidateb_false. auto.
  - now apply candidateb_true.
  - intros g Hg. apply candidateb_false. auto.
Qed.

Lemma mostDerived_unique (contract : ptr) (name : string) (w w' : ptr) :
  mostDerived P contract name w -> mostDerived P contract name w' -> w = w'.
Proof. rewrite <- !mostDerived_back. congruence. Qed.

Lemma visibleb_true (contract : ptr) (f : ptr) :
  visibleb P contract f = true <->
  isTvmIntrinsic (functionName P f) = false /\
  mostDerived P contract (functionName P f) f.
Proof.
  unfold visibleb. rewrite <- mostDerived_back.
  rewrite !andb_true_iff, !negb_true_iff.
  destruct (back (getContractFunctionsNamed P contract (functionName P f)))
    as [w|] eqn:E.
  - split.
    + intros [[_ Hi] Hw]. apply Pos.eqb_eq in Hw. subst w. auto.
    + intros [Hi [= ->]]. rewrite Pos.eqb_refl. repeat split; auto.
      apply mostDerived_back in E. now destruct E as (_ & _ & _ & [Hc _] & _).
  - split; [intros [_ H]|intros [_ H]]; discriminate.
Qed.

(** One turn of the loop on a declaration of the chain never takes [back()]
    of an empty vector. *)
Lemma getContractFunctions_step_visible (contract : ptr) (f c : ptr)
  (r : list ptr) :
  In f (chainFunctions P contract) ->
  getContractFunctions_step P contract (Some r) (f, c) =
  Some (if visibleb P contract f then push_back r f else r).
Proof.
  intros Hf. unfold getContractFunctions_step, visibleb. cbn [fst].
  destruct (isConstructor (functionAt P f)) eqn:Ec; [reflexivity|].
  destruct (isTvmIntrinsic (functionName P f)) eqn:Ei; [reflexivity|].
  destruct (back (getContractFunctionsNamed P contract (functionName P f)))
    as [w|] eqn:Eb.
  - destruct (Pos.eqb f w); reflexivity.
  - exfalso. rewrite getContractFunctionsNamed_filter in Eb.
    apply back_filter_None with (g := f) in Eb; [|assumption].
    apply candidateb_false in Eb. apply Eb.
    split; [assumption | symmetry; apply functionName_effectiveName].
Qed.

Lemma getContractFunctions_loop (contract : ptr) (pairs : list (ptr * ptr))
  (r : list ptr) :
  (forall pair, In pair pairs -> In (fst pair) (chainFunctions P contract)) ->
  fold_left (getContractFunctions_step P contract) pairs (Some r) =
  Some (r ++ filter (visibleb P contract) (map fst pairs)).
Proof.
  revert r; induction pairs as [|[f c] pairs IH]; intros r Hin.
  - simpl. now rewrite app_nil_r.
  - cbn [fold_left map filter fst].
    rewrite getContractFunctions_step_visible by (apply (Hin (f, c)); now left).
    rewrite IH by (intros pair Hp; apply Hin; now right).
    destruct (visibleb P contract f); [|reflexivity].
    unfold push_back. now rewrite <- app_assoc.
Qed.

Lemma getContractFunctions_filter (contract : ptr) :
  getContractFunctions P contract =
  Some (filter (visibleb P contract) (chainFunctions P contract)).
Proof.
  unfold getContractFunctions. rewrite getContractFunctions_loop.
  - now rewrite getContractFunctionPairs_fst.
  - intros pair Hp. rewrite <- getContractFunctionPairs_fst. now apply in_map.
Qed.

End ContractFunctions.

Lemma not_intrinsic (name : string) :
  isTvmIntrinsic name = false <-> ~ has_prefix name "tvm_".
Proof.
  rewrite <- isTvmIntrinsic_true.
  destruct (isTvmIntrinsic name); split; congruence.
Qed.

(** C6: [getContractFunctions(contract)] returns (it never reads an empty
    vector); its result holds no constructor and no declaration whose
    effective name, the name of its role, starts with "tvm_"; a declaration
    is in it exactly when its effective name has no such prefix and it is the
    most derived declaration with that name, the last one going through the
    linearized base contracts from the base to the contract itself; so every
    such name has its most derived declaration in the result and no other,
    once when no declaration is listed twice. *)
Theorem getContractFunctions_spec (P : Program) (contract : ptr) :
  exists result,
    getContractFunctions P contract = Some result /\
    (forall f, In f result ->
       isConstructor (functionAt P f) = false /\
       ~ has_prefix (effectiveName P f) "tvm_") /\
    (forall f, In f result <->
       ~ has_prefix (effectiveName P f) "tvm_" /\
       mostDerived P contract (effectiveName P f) f) /\
    (forall name w,
       ~ has_prefix name "tvm_" -> mostDerived P contract name w ->
       In w result /\
       forall f, In f result -> effectiveName P f = name -> f = w) /\
    (NoDup (chainFunctions P contract) -> NoDup result).
Proof.
  exists (filter (visibleb P contract) (chainFunctions P contract)).
  assert (Hin : forall f,
             In f (filter (visibleb P contract) (chainFunctions P contract)) <->
             ~ has_prefix (effectiveName P f) "tvm_" /\
             mostDerived P contract (effectiveName P f) f).
  { intros f. rewrite filter_In, visibleb_true, not_intrinsic.
    rewrite functionName_effectiveName. split.
    - tauto.
    - intros [Hi Hm]. split; [|tauto].
      destruct Hm as (l1 & l2 & -> & _). apply in_elt. }
  split; [apply getContractFunctions_filter|].
  split; [|split; [exact Hin|split]].
  - intros f Hf. apply Hin in Hf. destruct Hf as [Hi Hm]. split; [|exact Hi].
    now destruct Hm as (_ & _ & _ & [Hc _] & _).
  - intros name w Hi Hw.
    assert (Hname : effectiveName P w = name)
      by now destruct Hw as (_ & _ & _ & [_ Hn] & _).
    split.
    + apply Hin. rewrite Hname. auto.
    + intros f Hf Hfn. apply Hin in Hf. destruct Hf as [_ Hm].
      rewrite Hfn in Hm. exact (mostDerived_unique P contract name f w Hm Hw).
  - apply NoDup_filter.
Qed.

(** On [rolesProgram] the receive function of Derived wins over the one of
    Base, and the fallback function of Base, of the same declared name,
    stays. *)
Lemma getContractFunctions_spec_witness :
  exists result,
    getContractFunctions rolesProgram 2 = Some result /\
    In 20%positive result /\ In 11%positive result /\ ~ In 10%positive result.
Proof.
  destruct (getContractFunctions_spec rolesProgram 2)
    as (result & Hres & _ & _ & Hwin & _).
  exists result. split; [exact Hres|].
  assert (Hr : mostDerived rolesProgram 2 "receive" 20).
  { exists [10; 11]%positive, []. repeat split. intros g []. }
  assert (Hf : mostDerived rolesProgram 2 "fallback" 11).
  { exists [10]%positive, [20]%positive. repeat split.
    intros g [<-|[]] [_ H]. discriminate H. }
  assert (Hnr : ~ has_prefix "receive" "tvm_")
    by (intros [rest H]; discriminate H).
  assert (Hnf : ~ has_prefix "fallback" "tvm_")
    by (intros [rest H]; discriminate H).
  split; [exact (proj1 (Hwin "receive" 20%positive Hnr Hr))|].
  split; [exact (proj1 (Hwin "fallback" 11%positive Hnf Hf))|].
  intros H10.
  pose proof (proj2 (Hwin "receive" 20%positive Hnr Hr) 10%positive H10 eq_refl)
    as E.
  discriminate E.
Defined.

(** ** The functions at work *)

Example bitsForEnum_values :
  bitsForEnum 8 1 = 8 /\ bitsForEnum 8 256 = 8 /\ bitsForEnum 8 257 = 16 /\
  bitsForEnum 8 65537 = 24 /\ bitsForEnum 8 0 = 64 /\ bitsForEnum 4 0 = 32.
Proof. repeat split; reflexivity. Qed.

Example ends_with_values :
  ends_with "foo_inline" "_inline" = true /\ ends_with "inline" "_inline" = false /\
  isMacro "x_macro" = true /\
  isTvmIntrinsic "tvm_accept" = true /\ isTvmIntrinsic "my_tvm_" = false.
Proof. repeat split; reflexivity. Qed.

Example storeIntegralOrAddress_values :
  storeIntegralOrAddress integerTypeInfo sample_toString (IntegerType false 256)
                         false = Ok "STU 256" /\
  storeIntegralOrAddress integerTypeInfo sample_toString (IntegerType false 267)
                         true = Ok "STUR 267" /\
  storeIntegralOrAddress integerTypeInfo sample_toString AddressType true
  = Ok "STSLICER" /\
  storeIntegralOrAddress integerTypeInfo sample_toString TvmCellType false
  = AssertionFailed "Unsupported param type type".
Proof. repeat split; reflexivity. Qed.

Example lengthOfDictKey_values :
  lengthOfDictKey integerTypeInfo 267 ContractType = Ok 267 /\
  lengthOfDictKey integerTypeInfo 267 (IntegerType true 32) = Ok 32 /\
  lengthOfDictKey integerTypeInfo 267 (ArrayType StringKind) = Ok 256 /\
  lengthOfDictKey integerTypeInfo 267
    (StructType [("a", IntegerType false 8); ("b", IntegerType true 64)]) = Ok 72 /\
  lengthOfDictKey integerTypeInfo 267
    (StructType [("a", IntegerType false 8); ("b", AddressType)])
  = AssertionFailed "" /\
  lengthOfDictKey integerTypeInfo 267 (ArrayType Ordinary) = AssertionFailed "".
Proof. repeat split; reflexivity. Qed.

Example typeToDictChar_values :
  typeToDictChar integerTypeInfo (IntegerType true 8) = "I" /\
  typeToDictChar integerTypeInfo (IntegerType false 8) = "U" /\
  typeToDictChar integerTypeInfo StringLiteralType = "U" /\
  typeToDictChar integerTypeInfo AddressType = "".
Proof. repeat split; reflexivity. Qed.

Example sample_visible :
  getContractFunctions sampleProgram 3 = Some [20; 30]%positive /\
  getContractFunctionsNamed sampleProgram 3 "foo" = [10; 30]%positive /\
  getFunction sampleProgram 1 "tvm_accept" = Some 12%positive.
Proof. repeat split; reflexivity. Qed.

Example sample_super :
  getSuperContract sampleProgram 3 3 "foo" = Some 1%positive /\
  getSuperContract sampleProgram 2 3 "foo" = Some 1%positive /\
  getSuperContract sampleProgram 1 3 "foo" = None /\
  getSuperContract sampleProgram 3 3 "bar" = Some 2%positive.
Proof. repeat split; reflexivity. Qed.

(** ** Further facts about the code *)

(** X1: when [currentContract] does not occur in the chain of [mainContract]
    the loop of [getSuperContract] never breaks, and the result is the last
    contract of the whole chain that declares the name. *)
Theorem getSuperContract_outside_chain (P : Program)
  (currentContract mainContract : ptr) (fname : string) :
  ~ In currentContract (getContractsChain P mainContract) ->
  forall c, getSuperContract P currentContract mainContract fname = Some c <->
            last_declaring P (getContractsChain P mainContract) fname c.
Proof.
  intros Hnot c. unfold getSuperContract.
  rewrite getSuperContract_loop_whole by assumption.
  rewrite <- last_declaring_back.
  destruct (back (filter (declaresb P fname) (getContractsChain P mainContract)));
    split; congruence.
Qed.

Lemma getSuperContract_outside_chain_witness :
  getSuperContract sampleProgram 7 3 "foo" = Some 3%positive <->
  last_declaring sampleProgram (getContractsChain sampleProgram 3) "foo" 3.
Proof.
  apply (getSuperContract_outside_chain sampleProgram 7 3 "foo").
  simpl. intros [H|[H|[H|[]]]]; discriminate H.
Defined.

(** X2: the assertion [cmd != "STU 267"] is evaluated before the width is
    appended and never fires: an unsigned numeric type of 267 bits is stored
    with "STU 267", or "STUR 267" when reversed. *)
Theorem storeIntegralOrAddress_unsigned_267 (typeInfo : Type_ -> TypeInfo)
  (Type_toString : Type_ -> string) (type : Type_) (reverse : bool) :
  isAddressOrContractType type = false ->
  isNumeric (typeInfo type) = true ->
  isSigned (typeInfo type) = false ->
  numBits (typeInfo type) = 267 ->
  storeIntegralOrAddress typeInfo Type_toString type reverse =
  Ok (if reverse then "STUR 267" else "STU 267").
Proof.
  intros Ha Hn Hs Hb.
  rewrite (storeIntegralOrAddress_numeric_eq _ _ _ _ Ha Hn), Hs, Hb.
  destruct reverse; reflexivity.
Qed.

Lemma storeIntegralOrAddress_unsigned_267_witness :
  storeIntegralOrAddress integerTypeInfo sample_toString (IntegerType false 267)
                         false = Ok "STU 267".
Proof.
  exact (storeIntegralOrAddress_unsigned_267 integerTypeInfo sample_toString
           (IntegerType false 267) false eq_refl eq_refl eq_refl eq_refl).
Defined.


(** X4: [getFunction] returns the first function of the contract's own list
    whose declared name is the one asked for, and nothing when there is none;
    the bases are not searched. *)
Theorem getFunction_first (P : Program) (contract : ptr) (fname : string) :
  (forall f, getFunction P contract fname = Some f <->
     exists l1 l2, definedFunctions (contractAt P contract) = l1 ++ f :: l2 /\
                   f_name (functionAt P f) = fname /\
                   forall g, In g l1 -> f_name (functionAt P g) <> fname) /\
  (getFunction P contract fname = None <-> ~ declares P contract fname).
Proof.
  unfold getFunction. split.
  - generalize (definedFunctions (contractAt P contract)) as fs.
    induction fs as [|g fs IH]; intros f; simpl.
    + split; [discriminate|]. intros ([|] & l2 & H & _); discriminate H.
    + destruct (String.eqb_spec (f_name (functionAt P g)) fname) as [Eg|Eg].
      * split.
        -- intros [= <-]. exists [], fs. repeat split; auto.
        -- intros ([|g' l1] & l2 & H & Hf & Hl1); simpl in H.
           ++ congruence.
           ++ injection H as <- _. elim (Hl1 g); [now left|assumption].
      * rewrite IH. split.
        -- intros (l1 & l2 & -> & Hf & Hl1). exists (g :: l1), l2.
           repeat split; auto. intros g' [<-|Hg']; auto.
        -- intros ([|g' l1] & l2 & H & Hf & Hl1); simpl in H.
           ++ injection H as <- _. contradiction.
           ++ injection H as <- ->. exists l1, l2. repeat split; auto.
              intros g' Hg'. apply Hl1. now right.
  - rewrite <- declaresb_false. unfold declaresb, getFunction.
    destruct (getFunction_loop P _ fname); split; congruence.
Qed.

(** X5: [getContractFunctions(contract, funcName)] lists, base first, the
    declarations of the chain that are no constructors and have the effective
    name [funcName]; its last element is the most derived one. *)
Theorem getContractFunctionsNamed_spec (P : Program) (contract : ptr)
  (funcName : string) :
  getContractFunctionsNamed P contract funcName =
  filter (candidateb P funcName) (chainFunctions P contract) /\
  (forall f, In f (getContractFunctionsNamed P contract funcName) <->
             In f (chainFunctions P contract) /\ candidate P funcName f) /\
  (forall w, back (getContractFunctionsNamed P contract funcName) = Some w <->
             mostDerived P contract funcName w).
Proof.
  split; [apply getContractFunctionsNamed_filter|]. split.
  - intros f. rewrite getContractFunctionsNamed_filter, filter_In.
    now rewrite candidateb_true.
  - intros w. apply mostDerived_back.
Qed.

Lemma membersBits_bound (typeInfo : Type_ -> TypeInfo)
  (members : list (string * Type_)) :
  Forall (fun m => numBits (typeInfo (snd m)) <= 256) members ->
  membersBits typeInfo members <= 256 * Z.of_nat (List.length members).
Proof.
  unfold membersBits. induction 1 as [|m ms Hm _ IH].
  - simpl. lia.
  - cbn [map fold_right List.length]. rewrite Nat2Z.inj_succ. lia.
Qed.

(** X6: for a struct key whose members are all numeric, of widths that are
    not negative, [lengthOfDictKey] returns the sum of the widths when the
    sum is an [int], and overflows its [int] accumulator, with undefined
    behaviour, when it is not; members of at most 256 bits, fewer than 2^23
    of them, keep the sum an [int]. *)
Theorem lengthOfDictKey_struct_int (typeInfo : Type_ -> TypeInfo)
  (stdAddrLength : Z) (members : list (string * Type_)) :
  isNumeric (typeInfo (StructType members)) = false ->
  Forall (fun m => isNumeric (typeInfo (snd m)) = true) members ->
  Forall (fun m => 0 <= numBits (typeInfo (snd m))) members ->
  (membersBits typeInfo members <= INT_MAX ->
   lengthOfDictKey typeInfo stdAddrLength (StructType members) =
   Ok (membersBits typeInfo members)) /\
  (INT_MAX < membersBits typeInfo members ->
   lengthOfDictKey typeInfo stdAddrLength (StructType members) = Undefined) /\
  (Forall (fun m => numBits (typeInfo (snd m)) <= 256) members ->
   Z.of_nat (List.length members) < 8388608 ->
   exists n,
     lengthOfDictKey typeInfo stdAddrLength (StructType members) = Ok n /\
     0 <= n <= INT_MAX).
Proof.
  intros Hn Hall Hpos.
  assert (Hfit : membersBits typeInfo members <= INT_MAX ->
                 lengthOfDictKey typeInfo stdAddrLength (StructType members) =
                 Ok (membersBits typeInfo members)).
  { intros Hle. unfold lengthOfDictKey. cbn. rewrite Hn.
    rewrite (members_all_numeric typeInfo members 0 Hall Hpos);
      [reflexivity | unfold INT_MIN; lia | lia]. }
  split; [exact Hfit|]. split.
  - intros Hgt. unfold lengthOfDictKey. cbn. rewrite Hn.
    apply members_overflow; auto; unfold INT_MIN, INT_MAX in *; lia.
  - intros Hw Hlen. pose proof (membersBits_bound typeInfo members Hw) as Hb.
    pose proof (membersBits_nonneg typeInfo members Hpos) as Hnn.
    assert (Hle : membersBits typeInfo members <= INT_MAX)
      by (unfold INT_MAX; lia).
    exists (membersBits typeInfo members). split; [now apply Hfit | lia].
Qed.

Lemma lengthOfDictKey_struct_int_witness :
  let members := [("a", IntegerType false 8); ("b", IntegerType true 64)] in
  (membersBits integerTypeInfo members <= INT_MAX ->
   lengthOfDictKey integerTypeInfo 267 (StructType members) =
   Ok (membersBits integerTypeInfo members)) /\
  (INT_MAX < membersBits integerTypeInfo members ->
   lengthOfDictKey integerTypeInfo 267 (StructType members) = Undefined) /\
  (Forall (fun m => numBits (integerTypeInfo (snd m)) <= 256) members ->
   Z.of_nat (List.length members) < 8388608 ->
   exists n,
     lengthOfDictKey integerTypeInfo 267 (StructType members) = Ok n /\
     0 <= n <= INT_MAX).
Proof.
  apply (lengthOfDictKey_struct_int integerTypeInfo 267
           [("a", IntegerType false 8); ("b", IntegerType true 64)]).
  - reflexivity.
  - repeat constructor.
  - repeat constructor; simpl; discriminate.
Defined.

(** X7: whatever types [TypeInfo] takes for numeric, with the operands
    reversed the instruction of a numeric type is never the mnemonic, the
    width and then the letter R: the letter stands before the space. *)
Theorem storeIntegralOrAddress_reverse_letter (typeInfo : Type_ -> TypeInfo)
  (Type_toString : Type_ -> string) (type : Type_) :
  isAddressOrContractType type = false ->
  isNumeric (typeInfo type) = true ->
  storeIntegralOrAddress typeInfo Type_toString type true <>
  Ok (storeInstruction_as_worded (isSigned (typeInfo type))
                                 (numBits (typeInfo type)) true).
Proof.
  intros Ha Hn. rewrite (storeIntegralOrAddress_numeric_eq _ _ _ _ Ha Hn).
  unfold storeMnemonic, storeInstruction_as_worded.
  destruct (isSigned (typeInfo type)); cbn; intros H; discriminate H.
Qed.

Lemma storeIntegralOrAddress_reverse_letter_witness :
  storeIntegralOrAddress integerTypeInfo sample_toString (IntegerType false 16)
                         true <>
  Ok (storeInstruction_as_worded false 16 true).
Proof.
  exact (storeIntegralOrAddress_reverse_letter integerTypeInfo sample_toString
           (IntegerType false 16) eq_refl eq_refl).
Defined.

(** ** Suffixes and prefixes *)

Lemma append_empty_r (s : string) : (s ++ "")%string = s.
Proof. induction s; simpl; congruence. Qed.

(** Of two suffixes of one string the shorter is a suffix of the longer. *)
Lemma has_suffix_comparable (s a b : string) :
  has_suffix s a -> has_suffix s b ->
  (String.length a <= String.length b)%nat -> has_suffix b a.
Proof.
  intros [p1 H1] [p2 H2]. subst s. revert p1 H2.
  induction p2 as [|c p2 IH]; intros p1 H Hlen.
  - simpl in H. exists p1. now symmetry.
  - destruct p1 as [|c1 p1].
    + simpl in H. apply (f_equal String.length) in H. simpl in H.
      rewrite length_append in H. lia.
    + simpl in H. injection H as _ H. now apply (IH p1).
Qed.

(** X8: [ends_with] holds exactly when [str] is some string followed by
    [suffix]: never when [suffix] is the longer one, always for the empty
    suffix and for [str] itself, and for a suffix of a suffix. *)
Theorem ends_with_suffix (str suffix : string) :
  (ends_with str suffix = true <-> has_suffix str suffix) /\
  ((String.length str < String.length suffix)%nat ->
   ends_with str suffix = false) /\
  ends_with str "" = true /\
  ends_with str str = true /\
  (forall s, ends_with s str = true -> ends_with str suffix = true ->
             ends_with s suffix = true).
Proof.
  split; [apply ends_with_true|]. split; [|split; [|split]].
  - intros Hlt. unfold ends_with.
    now rewrite (proj2 (Nat.ltb_lt _ _) Hlt).
  - apply ends_with_true. exists str. now rewrite append_empty_r.
  - apply ends_with_true. now exists "".
  - intros s H1 H2. apply ends_with_true in H1, H2. apply ends_with_true.
    destruct H1 as [p1 ->], H2 as [p2 ->]. exists (p1 ++ p2)%string.
    clear. induction p1; simpl; congruence.
Qed.

(** X9: a name is a TVM intrinsic exactly when it starts with "tvm_"; the
    four letters anywhere else in the name do not count, and a name of fewer
    than four characters is never one. *)
Theorem isTvmIntrinsic_prefix (name : string) :
  (isTvmIntrinsic name = true <-> has_prefix name "tvm_") /\
  (forall c, c <> "t"%char -> isTvmIntrinsic (String c name) = false) /\
  ((String.length name < 4)%nat -> isTvmIntrinsic name = false).
Proof.
  split; [apply isTvmIntrinsic_true|]. split.
  - intros c Hc. apply not_intrinsic. intros [rest H]. simpl in H. congruence.
  - intros Hlen. apply not_intrinsic. intros [rest ->].
    rewrite length_append in Hlen. simpl in Hlen. lia.
Qed.

(** X10: a name is a macro name exactly when it ends with "_macro", and then
    it does not end with "_inline": the two suffix tests of this file never
    hold of the same name. *)
Theorem isMacro_not_inline (name : string) :
  (isMacro name = true <-> has_suffix name "_macro") /\
  (isMacro name = true -> ends_with name "_inline" = false).
Proof.
  unfold isMacro. split; [apply ends_with_true|].
  intros Hm. destruct (ends_with name "_inline") eqn:Hi; [|reflexivity].
  apply ends_with_true in Hm, Hi.
  assert (H : has_suffix "_inline" "_macro").
  { apply (has_suffix_comparable name); auto. simpl. lia. }
  apply ends_with_true in H. discriminate H.
Qed.

(** ** Enum width: the smallest number of bytes *)

(** X11: for a count of values [n >= 1] that fits [size_t], the enum width is
    at most [8 * k] bits exactly when [k] bytes hold the indices up to
    [n - 1]: the width is the smallest whole number of bytes that does. *)
Theorem bitsForEnum_smallest (sizeof_size_t n : N) (k : Z) :
  (1 <= n < size_max_succ sizeof_size_t)%N ->
  1 <= k ->
  (bitsForEnum sizeof_size_t n <= 8 * k <-> Z.of_N n - 1 < 2 ^ (8 * k)).
Proof.
  intros Hn Hk. unfold bitsForEnum; cbv zeta. rewrite size_decr_pred by lia.
  assert (Hv : Z.of_N (n - 1) = Z.of_N n - 1).
  { rewrite N2Z.inj_sub by lia. reflexivity. }
  split.
  - intros Hle. pose proof (bitsForEnum_loop_upper (n - 1)) as Hu.
    assert (2 ^ (8 * bitsForEnum_loop (n - 1) 0) <= 2 ^ (8 * k))
      by (apply Z.pow_le_mono_r; lia).
    lia.
  - intros Hlt. rewrite <- Hv in Hlt.
    pose proof (bitsForEnum_loop_least (n - 1) k Hk Hlt). lia.
Qed.

Lemma bitsForEnum_smallest_witness :
  bitsForEnum 8 65537 <= 8 * 3 <-> Z.of_N 65537 - 1 < 2 ^ (8 * 3).
Proof.
  apply (bitsForEnum_smallest 8 65537 3).
  - split; [discriminate | reflexivity].
  - discriminate.
Defined.

(** X12: whatever the count, zero and counts beyond the values of an enum
    included, the width lies between 8 bits and the width of [size_t]. *)
Theorem bitsForEnum_range (sizeof_size_t val_count : N) :
  (1 <= sizeof_size_t)%N ->
  8 <= bitsForEnum sizeof_size_t val_count <= 8 * Z.of_N sizeof_size_t.
Proof.
  intros Hsz. unfold bitsForEnum; cbv zeta.
  set (v := size_decr sizeof_size_t val_count).
  pose proof (bitsForEnum_loop_pos v) as Hp.
  assert (Hv : Z.of_N v < 2 ^ (8 * Z.of_N sizeof_size_t)).
  { rewrite <- size_max_succ_Z. apply N2Z.inj_lt. unfold v, size_decr.
    apply N.mod_lt. pose proof (size_max_succ_pos sizeof_size_t). lia. }
  pose proof (bitsForEnum_loop_least v (Z.of_N sizeof_size_t) ltac:(lia) Hv).
  lia.
Qed.

Lemma bitsForEnum_range_witness :
  8 <= bitsForEnum 4 1000000 <= 8 * Z.of_N 4.
Proof. apply (bitsForEnum_range 4 1000000). discriminate. Defined.

(** ** How the type tests relate *)

(** X13: of an array type exactly one of [isUsualArray] and
    [isByteArrayOrString] holds, and neither holds of another type; a byte
    array or string passes [isStringOrStringLiteralOrBytes] and [isRefType];
    the latter two tests add the string literals and the TVM cells; an
    address or contract type passes none of these tests. *)
Theorem type_tests_related (t : Type_) :
  (category t = CatArray ->
   isUsualArray t = negb (isByteArrayOrString t)) /\
  (category t <> CatArray ->
   isUsualArray t = false /\ isByteArrayOrString t = false) /\
  (isStringOrStringLiteralOrBytes t = true <->
   isByteArrayOrString t = true \/ category t = CatStringLiteral) /\
  (isRefType t = true <->
   isByteArrayOrString t = true \/ category t = CatTvmCell) /\
  (isString t = true -> isStringOrStringLiteralOrBytes t = true) /\
  (isAddressOrContractType t = true ->
   isUsualArray t = false /\ isByteArrayOrString t = false /\
   isString t = false /\ isStringOrStringLiteralOrBytes t = false /\
   isRefType t = false).
Proof.
  destruct t as [| | | | | |[]| | | | | | |]; cbn;
    repeat split; intros; try tauto; try congruence;
    try (intuition (discriminate || auto)).
Qed.

(** ** Dictionary keys *)

(** X14: whenever [typeToDictChar] gives an integer key kind ("I" or "U"),
    [lengthOfDictKey] returns a length: the standard address length, the
    type's own width or 256.  So a key type for which the length fails is a
    slice key. *)
Theorem integer_key_has_length (typeInfo : Type_ -> TypeInfo)
  (stdAddrLength : Z) (key : Type_) :
  typeToDictChar typeInfo key <> "" ->
  exists n,
    lengthOfDictKey typeInfo stdAddrLength key = Ok n /\
    (n = stdAddrLength \/ n = numBits (typeInfo key) \/ n = 256).
Proof.
  unfold typeToDictChar, lengthOfDictKey. intros H.
  destruct (isIn (category key) CatAddress CatContract); [eauto|].
  destruct (isNumeric (typeInfo key)); [eauto|].
  destruct (isStringOrStringLiteralOrBytes key); [eauto|].
  now elim H.
Qed.

Lemma integer_key_has_length_witness :
  exists n,
    lengthOfDictKey integerTypeInfo 267 (ArrayType Bytes) = Ok n /\
    (n = 267 \/ n = numBits (integerTypeInfo (ArrayType Bytes)) \/ n = 256).
Proof.
  apply (integer_key_has_length integerTypeInfo 267 (ArrayType Bytes)).
  discriminate.
Defined.

(** ** Reading a store instruction back *)

Lemma toString_inj (a b : Z) : Str.toString a = Str.toString b -> a = b.
Proof.
  unfold Str.toString. intros H. apply DecimalZ.to_int_inj.
  pose proof (NilEmpty.isi (Z.to_int a)) as Ha.
  pose proof (NilEmpty.isi (Z.to_int b)) as Hb.
  rewrite H in Ha. congruence.
Qed.

(** X15: the instruction of a numeric type tells the encoding: two calls that
    return the same string agree on the signedness, on the order of the
    operands and on the bit width. *)
Theorem storeIntegralOrAddress_decodes (typeInfo : Type_ -> TypeInfo)
  (Type_toString : Type_ -> string) (t1 t2 : Type_) (r1 r2 : bool) :
  isAddressOrContractType t1 = false -> isNumeric (typeInfo t1) = true ->
  isAddressOrContractType t2 = false -> isNumeric (typeInfo t2) = true ->
  storeIntegralOrAddress typeInfo Type_toString t1 r1 =
  storeIntegralOrAddress typeInfo Type_toString t2 r2 ->
  isSigned (typeInfo t1) = isSigned (typeInfo t2) /\ r1 = r2 /\
  numBits (typeInfo t1) = numBits (typeInfo t2).
Proof.
  intros Ha1 Hn1 Ha2 Hn2.
  rewrite (storeIntegralOrAddress_numeric_eq _ _ _ _ Ha1 Hn1),
          (storeIntegralOrAddress_numeric_eq _ _ _ _ Ha2 Hn2).
  unfold storeMnemonic.
  destruct (isSigned (typeInfo t1)), (isSigned (typeInfo t2)), r1, r2; cbn;
    intros H; try discriminate H; injection H as H;
    repeat split; now apply toString_inj.
Qed.

Lemma storeIntegralOrAddress_decodes_witness :
  isSigned (integerTypeInfo (IntegerType true 32)) =
  isSigned (integerTypeInfo (IntegerType true 32)) /\ true = true /\
  numBits (integerTypeInfo (IntegerType true 32)) =
  numBits (integerTypeInfo (IntegerType true 32)).
Proof.
  exact (storeIntegralOrAddress_decodes integerTypeInfo sample_toString
           (IntegerType true 32) (IntegerType true 32) true true
           eq_refl eq_refl eq_refl eq_refl eq_refl).
Defined.

(** ** The pairs of a contract *)

(** X16: [getContractFunctionPairs] lists, for the contracts of the chain
    base first and for the functions of each in the order they are defined,
    every function with the contract that defines it, and nothing else. *)
Theorem getContractFunctionPairs_spec (P : Program) (contract : ptr) :
  getContractFunctionPairs P contract =
  flat_map (fun c => map (fun f => (f, c)) (definedFunctions (contractAt P c)))
           (rev (linearizedBaseContracts (contractAt P contract))) /\
  (forall f c, In (f, c) (getContractFunctionPairs P contract) <->
               In c (linearizedBaseContracts (contractAt P contract)) /\
               In f (definedFunctions (contractAt P c))) /\
  List.length (getContractFunctionPairs P contract) =
  list_sum (map (fun c => List.length (definedFunctions (contractAt P c)))
                (linearizedBaseContracts (contractAt P contract))).
Proof.
  assert (E : getContractFunctionPairs P contract =
              flat_map (fun c => map (fun f => (f, c))
                                     (definedFunctions (contractAt P c)))
                       (rev (linearizedBaseContracts (contractAt P contract)))).
  { unfold getContractFunctionPairs, getContractsChain.
    now rewrite pairs_of_chain. }
  split; [exact E|]. rewrite E. split.
  - intros f c. rewrite in_flat_map. split.
    + intros (c' & Hc' & Hin). apply in_map_iff in Hin.
      destruct Hin as (f' & [= <- <-] & Hf'). split; [|assumption].
      now apply in_rev.
    + intros [Hc Hf]. exists c. split; [now apply in_rev in Hc|].
      apply in_map_iff. now exists f.
  - clear E. rewrite <- (rev_involutive (linearizedBaseContracts _)) at 2.
    induction (rev (linearizedBaseContracts (contractAt P contract)))
      as [|c chain IH]; [reflexivity|].
    cbn [flat_map rev]. rewrite length_app, length_map, IH, map_app, list_sum_app.
    simpl. lia.
Qed.

(** ** One visible function per name *)

(** X17: when the pairs of the contract list no function twice, no two
    functions that [getContractFunctions(contract)] returns have the same
    effective name. *)
Theorem getContractFunctions_names_distinct (P : Program) (contract : ptr)
  (result : list ptr) :
  NoDup (map fst (getContractFunctionPairs P contract)) ->
  getContractFunctions P contract = Some result ->
  NoDup (map (functionName P) result).
Proof.
  rewrite getContractFunctionPairs_fst, getContractFunctions_filter.
  intros Hnd [= <-].
  apply NoDup_map_NoDup_ForallPairs; [|now apply NoDup_filter].
  intros f g Hf Hg Hname.
  apply filter_In in Hf, Hg. destruct Hf as [_ Hf], Hg as [_ Hg].
  apply visibleb_true in Hf, Hg. destruct Hf as [_ Hf], Hg as [_ Hg].
  rewrite Hname in Hf.
  exact (mostDerived_unique P contract (functionName P g) f g Hf Hg).
Qed.

Lemma getContractFunctions_names_distinct_witness :
  NoDup (map (functionName sampleProgram) [20; 30]%positive).
Proof.
  apply (getContractFunctions_names_distinct sampleProgram 3).
  - cbv. repeat constructor; simpl; intuition discriminate.
  - reflexivity.
Defined.

(** ** What the super contract is *)

Lemma getSuperContract_loop_Some (P : Program) (chain : list ptr) (cur : ptr)
  (fname : string) (prev : option ptr) (c : ptr) :
  getSuperContract_loop P chain cur fname prev = Some c ->
  prev = Some c \/
  (In c chain /\ c <> cur /\ getFunction P c fname <> None).
Proof.
  revert prev; induction chain as [|c' chain IH]; intros prev; simpl.
  - auto.
  - destruct (Pos.eqb_spec c' cur) as [->|Hc]; [auto|].
    intros H. apply IH in H. destruct H as [H|(Hin & Hne & Hf)].
    + destruct (getFunction P c' fname) eqn:E; [|auto].
      injection H as <-. right. rewrite E. repeat split; auto; discriminate.
    + right. auto.
Qed.

(** X18: a contract that [getSuperContract] returns is a base of
    [mainContract], is not [currentContract], and [getFunction] finds in it a
    function of the name asked for: the caller's lookup in the super contract
    never comes back empty. *)
Theorem getSuperContract_usable (P : Program) (currentContract mainContract : ptr)
  (fname : string) (c : ptr) :
  getSuperContract P currentContract mainContract fname = Some c ->
  In c (linearizedBaseContracts (contractAt P mainContract)) /\
  c <> currentContract /\
  exists f, getFunction P c fname = Some f /\
            In f (definedFunctions (contractAt P c)) /\
            f_name (functionAt P f) = fname.
Proof.
  unfold getSuperContract. intros H.
  apply getSuperContract_loop_Some in H.
  destruct H as [H|(Hin & Hne & Hf)]; [discriminate|].
  split; [now apply in_rev|]. split; [assumption|].
  destruct (getFunction P c fname) as [f|] eqn:E; [|now elim Hf].
  exists f. split; [reflexivity|]. now apply getFunction_loop_Some.
Qed.

Lemma getSuperContract_usable_witness :
  In 1%positive (linearizedBaseContracts (contractAt sampleProgram 3)) /\
  1%positive <> 3%positive /\
  exists f, getFunction sampleProgram 1 "foo" = Some f /\
            In f (definedFunctions (contractAt sampleProgram 1)) /\
            f_name (functionAt sampleProgram f) = "foo".
Proof.
  exact (getSuperContract_usable sampleProgram 3 3 "foo" 1 eq_refl).
Defined.

(** ** address(this) *)

(** X19: [isAddressThis] is false for the null call; it is true exactly when
    the call converts to the elementary type [address] and its first argument
    is the identifier [this], whatever arguments follow; it fails, on its
    assertion, exactly when such a conversion has no argument at all. *)
Theorem isAddressThis_spec :
  isAddressThis None = Ok false /\
  forall fcall : FunctionCall,
    (isAddressThis (Some fcall) = Ok true <->
     fc_expression fcall = ElementaryTypeNameExpression TokenAddress /\
     exists rest, fc_arguments fcall = Identifier "this" :: rest) /\
    (fails (isAddressThis (Some fcall)) <->
     fc_expression fcall = ElementaryTypeNameExpression TokenAddress /\
     fc_arguments fcall = []).
Proof.
  split; [reflexivity|]. intros [e args]. unfold isAddressThis, fails. cbn.
  destruct e as [name|[|tok]|e' args'|kind]; cbn;
    try (split; split;
         [discriminate | intros [H _]; discriminate H
         |intros [msg H]; discriminate H | intros [H _]; discriminate H]).
  destruct args as [|arg0 rest]; cbn.
  - split; split.
    + discriminate.
    + intros [_ [rest H]]. discriminate H.
    + auto.
    + intros _. now exists "".
  - destruct arg0 as [name| | |]; cbn;
      try (split; split;
           [discriminate | intros [_ [r H]]; discriminate H
           |intros [msg H]; discriminate H | intros [_ H]; discriminate H]).
    destruct (String.eqb_spec name "this") as [->|Hn]; split; split.
    + intros _. split; [reflexivity|]. now exists rest.
    + reflexivity.
    + intros [msg H]; discriminate H.
    + intros [_ H]; discriminate H.
    + discriminate.
    + intros [_ [r H]]. congruence.
    + intros [msg H]; discriminate H.
    + intros [_ H]; discriminate H.
Qed.

(** ** Random chromosomes and their printing *)

Section ChromosomeFacts.

Variable OptimiserStep : Type.
Variable allSteps : list (string * OptimiserStep).
Variable stepNameToAbbreviationMap : string -> option string.
Variable RandomState : Type.
Variable uniformRandomInt : N -> N -> RandomState -> N * RandomState.
Variable sizeof_size_t : N.

Lemma allStepNames_keys : Phaser.allStepNames _ allSteps = map fst allSteps.
Proof.
  unfold Phaser.allStepNames.
  change (map fst allSteps) with ([] ++ map fst allSteps).
  generalize (@nil string) as r.
  induction allSteps as [|step steps IH]; intros r; simpl.
  - now rewrite app_nil_r.
  - rewrite IH. unfold push_back. now rewrite <- app_assoc.
Qed.

(** A step drawn is a step of the table, whatever the generator, when the
    draw does not run past the end. *)
Lemma randomOptimisationStep_known (rng : RandomState) (s : string) :
  fst (Phaser.randomOptimisationStep _ allSteps _ uniformRandomInt
                                      sizeof_size_t rng) = Some s -> In s (map fst allSteps).
Proof.
  unfold Phaser.randomOptimisationStep.
  destruct (uniformRandomInt _ _ rng) as [i rng']. simpl.
  rewrite allStepNames_keys. apply nth_error_In.
Qed.

Lemma makeRandom_loop_known (turns : nat) (steps : list string)
  (rng : RandomState) (out : list string) :
  fst (Phaser.makeRandom_loop _ allSteps _ uniformRandomInt sizeof_size_t
                               turns steps rng) = Some out ->
  exists drawn, out = steps ++ drawn /\ List.length drawn = turns /\
                forall s, In s drawn -> In s (map fst allSteps).
Proof.
  revert steps rng; induction turns as [|turns IH]; intros steps rng; simpl.
  - intros [= <-]. exists []. rewrite app_nil_r. repeat split; auto.
    intros s [].
  - pose proof (randomOptimisationStep_known rng) as Hk.
    destruct (Phaser.randomOptimisationStep _ allSteps _ uniformRandomInt
                                      sizeof_size_t rng) as [[s|] rng']; simpl in *; [|discriminate].
    intros H. apply IH in H. destruct H as (drawn & -> & Hlen & Hin).
    exists (s :: drawn). unfold push_back. rewrite <- app_assoc.
    repeat split; simpl; auto. intros s' [<-|Hs']; auto.
Qed.

Section InRange.

(** The generator draws within the bounds it is given, and the table is not
    empty and fits [size_t]. *)
Hypothesis uniformRandomInt_range : forall lo hi rng,
  (lo <= hi)%N ->
  (lo <= fst (uniformRandomInt lo hi rng) <= hi)%N.
Hypothesis steps_not_empty : allSteps <> [].
Hypothesis steps_fit :
  (N.of_nat (List.length allSteps) < size_max_succ sizeof_size_t)%N.

Lemma randomOptimisationStep_defined (rng : RandomState) :
  exists s, fst (Phaser.randomOptimisationStep _ allSteps _ uniformRandomInt
                                      sizeof_size_t rng) = Some s.
Proof.
  unfold Phaser.randomOptimisationStep.
  rewrite allStepNames_keys, length_map.
  assert (Hlen : (1 <= N.of_nat (List.length allSteps))%N).
  { destruct allSteps; [now elim steps_not_empty | simpl; lia]. }
  rewrite size_decr_pred by lia.
  pose proof (uniformRandomInt_range 0 (N.of_nat (List.length allSteps) - 1) rng
                ltac:(lia)) as Hr.
  destruct (uniformRandomInt _ _ rng) as [i rng']. simpl in *.
  destruct (nth_error (map fst allSteps) (N.to_nat i)) as [s|] eqn:E; [eauto|].
  apply nth_error_None in E. rewrite length_map in E. lia.
Qed.

Lemma makeRandom_loop_defined (turns : nat) (steps : list string)
  (rng : RandomState) :
  exists out, fst (Phaser.makeRandom_loop _ allSteps _ uniformRandomInt sizeof_size_t
                               turns steps rng) = Some out.
Proof.
  revert steps rng; induction turns as [|turns IH]; intros steps rng; simpl.
  - eauto.
  - destruct (randomOptimisationStep_defined rng) as [s Hs].
    destruct (Phaser.randomOptimisationStep _ allSteps _ uniformRandomInt
                                      sizeof_size_t rng) as [s' rng']; simpl in Hs; subst s'. apply IH.
Qed.

End InRange.

Lemma print_loop_known (steps : list string) (stream : string) :
  (forall s, In s steps -> stepNameToAbbreviationMap s <> None) ->
  Phaser.print_loop stepNameToAbbreviationMap steps stream =
  Phaser.Returned
    (stream ++ Phaser.abbreviations stepNameToAbbreviationMap steps)%string.
Proof.
  revert stream; induction steps as [|s steps IH]; intros stream Hk; simpl.
  - now rewrite append_empty_r.
  - assert (Hs := Hk s (or_introl eq_refl)).
    destruct (stepNameToAbbreviationMap s) as [a|]; [|now elim Hs].
    rewrite IH by (intros s' Hs'; apply Hk; now right).
    f_equal. clear. induction stream; simpl; congruence.
Qed.

End ChromosomeFacts.

(** X20: with a generator that draws within its bounds and a table of steps
    that is not empty, [makeRandom(length)] returns a chromosome of exactly
    [length] steps, each a name of the table. *)
Theorem makeRandom_steps (OptimiserStep : Type)
  (allSteps : list (string * OptimiserStep)) (RandomState : Type)
  (uniformRandomInt : N -> N -> RandomState -> N * RandomState)
  (sizeof_size_t _length : N) (rng : RandomState) :
  (forall lo hi rng, (lo <= hi)%N ->
                     (lo <= fst (uniformRandomInt lo hi rng) <= hi)%N) ->
  allSteps <> [] ->
  (N.of_nat (List.length allSteps) < size_max_succ sizeof_size_t)%N ->
  exists steps,
    fst (Phaser.makeRandom _ allSteps _ uniformRandomInt sizeof_size_t
                           _length rng)
    = Some (Phaser.mkChromosome steps) /\
    N.of_nat (List.length steps) = _length /\
    forall s, In s steps -> In s (map fst allSteps).
Proof.
  intros Hrange Hne Hfit. unfold Phaser.makeRandom.
  destruct (makeRandom_loop_defined _ allSteps _ uniformRandomInt sizeof_size_t
              Hrange Hne Hfit (N.to_nat _length) [] rng) as [out Hout].
  destruct (makeRandom_loop_known _ allSteps _ uniformRandomInt sizeof_size_t
              _ _ _ _ Hout) as (drawn & -> & Hlen & Hin).
  cbv zeta in Hout.
  destruct (Phaser.makeRandom_loop _ _ _ _ _ _ _ _) as [steps rng'].
  simpl in Hout. subst steps. simpl. exists drawn.
  repeat split; [rewrite Hlen; apply N2Nat.id | exact Hin].
Qed.

Lemma makeRandom_steps_witness :
  exists steps,
    fst (Phaser.makeRandom _ Phaser.sampleSteps _ Phaser.sampleRandomInt 8 5 7%N)
    = Some (Phaser.mkChromosome steps) /\
    N.of_nat (List.length steps) = 5%N /\
    forall s, In s steps -> In s (map fst Phaser.sampleSteps).
Proof.
  apply (makeRandom_steps unit Phaser.sampleSteps N Phaser.sampleRandomInt 8 5 7%N).
  - intros lo hi state Hle. unfold Phaser.sampleRandomInt. cbn [fst].
    assert (state mod (hi - lo + 1) < hi - lo + 1)%N by (apply N.mod_lt; lia).
    set (m := (state mod (hi - lo + 1))%N) in *. clearbody m. lia.
  - discriminate.
  - reflexivity.
Defined.

(** X21: with an empty table of steps every draw of [makeRandom] indexes an
    empty vector, whatever the generator returns: for a positive length the
    behaviour is undefined, and only the chromosome of no step is made. *)
Theorem makeRandom_no_steps (OptimiserStep : Type) (RandomState : Type)
  (uniformRandomInt : N -> N -> RandomState -> N * RandomState)
  (sizeof_size_t _length : N) (rng : RandomState) :
  fst (Phaser.makeRandom OptimiserStep [] _ uniformRandomInt sizeof_size_t
                         _length rng)
  = if N.eqb _length 0 then Some (Phaser.mkChromosome []) else None.
Proof.
  unfold Phaser.makeRandom.
  destruct (N.eqb_spec _length 0) as [->|Hn]; [reflexivity|].
  destruct (N.to_nat _length) as [|turns] eqn:E; [lia|].
  cbn [Phaser.makeRandom_loop]. unfold Phaser.randomOptimisationStep.
  destruct (uniformRandomInt _ _ rng) as [i rng']. cbn.
  now rewrite nth_error_nil.
Qed.

(** X22: printing a chromosome writes the abbreviations of its steps in
    order and returns when every step has one; otherwise the lookup throws at
    the first step without abbreviation, after the abbreviations of the steps
    before it have been written. *)
Theorem print_spec (stepNameToAbbreviationMap : string -> option string)
  (stream : string) (chromosome : Phaser.Chromosome) :
  ((forall s, In s (Phaser.m_optimisationSteps chromosome) ->
              stepNameToAbbreviationMap s <> None) ->
   Phaser.print stepNameToAbbreviationMap stream chromosome =
   Phaser.Returned
     (stream ++ Phaser.abbreviations stepNameToAbbreviationMap
                  (Phaser.m_optimisationSteps chromosome))%string) /\
  (forall known unknown rest,
     Phaser.m_optimisationSteps chromosome = known ++ unknown :: rest ->
     (forall s, In s known -> stepNameToAbbreviationMap s <> None) ->
     stepNameToAbbreviationMap unknown = None ->
     Phaser.print stepNameToAbbreviationMap stream chromosome =
     Phaser.ThrewOutOfRange
       (stream ++ Phaser.abbreviations stepNameToAbbreviationMap known)%string).
Proof.
  unfold Phaser.print. split; [apply print_loop_known|].
  intros known unknown rest -> Hk Hu. revert stream.
  induction known as [|s known IH]; intros stream; simpl.
  - rewrite Hu. now rewrite append_empty_r.
  - assert (Hs := Hk s (or_introl eq_refl)).
    destruct (stepNameToAbbreviationMap s) as [a|]; [|now elim Hs].
    rewrite IH by (intros s' Hs'; apply Hk; now right).
    f_equal. clear. induction stream; simpl; congruence.
Qed.

(** X23: a chromosome that [makeRandom] has made prints without throwing
    when every step of the table has an abbreviation, whatever the generator
    drew. *)
Theorem makeRandom_prints (OptimiserStep : Type)
  (allSteps : list (string * OptimiserStep))
  (stepNameToAbbreviationMap : string -> option string) (RandomState : Type)
  (uniformRandomInt : N -> N -> RandomState -> N * RandomState)
  (sizeof_size_t _length : N) (rng : RandomState)
  (chromosome : Phaser.Chromosome) (stream : string) :
  (forall s, In s (map fst allSteps) -> stepNameToAbbreviationMap s <> None) ->
  fst (Phaser.makeRandom _ allSteps _ uniformRandomInt sizeof_size_t
                         _length rng) = Some chromosome ->
  Phaser.print stepNameToAbbreviationMap stream chromosome =
  Phaser.Returned
    (stream ++ Phaser.abbreviations stepNameToAbbreviationMap
                 (Phaser.m_optimisationSteps chromosome))%string.
Proof.
  intros Hall Hmade. unfold Phaser.print. apply print_loop_known.
  unfold Phaser.makeRandom in Hmade.
  pose proof (makeRandom_loop_known _ allSteps _ uniformRandomInt sizeof_size_t
                (N.to_nat _length) [] rng) as Hk. cbv zeta in Hk.
  destruct (Phaser.makeRandom_loop _ _ _ _ _ _ _ _) as [[steps|] rng'];
    simpl in *; [|discriminate].
  injection Hmade as <-. simpl.
  destruct (Hk steps eq_refl) as (drawn & -> & _ & Hin).
  intros s Hs. apply Hall. auto.
Qed.

Lemma makeRandom_prints_witness :
  Phaser.print Phaser.sampleAbbreviation "steps: "
    (Phaser.mkChromosome ["CommonSubexpressionEliminator"; "VarDeclInitializer"])
  = Phaser.Returned
      ("steps: " ++ Phaser.abbreviations Phaser.sampleAbbreviation
                      ["CommonSubexpressionEliminator"; "VarDeclInitializer"])%string.
Proof.
  apply (makeRandom_prints unit Phaser.sampleSteps Phaser.sampleAbbreviation N
           Phaser.sampleRandomInt 8 2 4%N).
  - intros s [<-|[<-|[<-|[]]]]; discriminate.
  - reflexivity.
Defined.

Example chromosome_values :
  fst (Phaser.makeRandom _ Phaser.sampleSteps _ Phaser.sampleRandomInt 8 3 0%N)
  = Some (Phaser.mkChromosome
            ["BlockFlattener"; "CommonSubexpressionEliminator";
             "VarDeclInitializer"]) /\
  Phaser.print Phaser.sampleAbbreviation ""
    (Phaser.mkChromosome ["VarDeclInitializer"; "BlockFlattener"])
  = Phaser.Returned "df" /\
  Phaser.print Phaser.sampleAbbreviation ""
    (Phaser.mkChromosome ["VarDeclInitializer"; "Unknown"; "BlockFlattener"])
  = Phaser.ThrewOutOfRange "d" /\
  isAddressThis (Some (mkFunctionCall (ElementaryTypeNameExpression TokenAddress)
                                      [Identifier "this"])) = Ok true /\
  isAddressThis (Some (mkFunctionCall (ElementaryTypeNameExpression TokenAddress)
                                      [])) = AssertionFailed "".
Proof. repeat split; reflexivity. Qed.

(** ** Order of the visible functions, and the intrinsics *)

(** X24: [getContractFunctions(contract)] keeps the order of the pairs: its
    result is the list of the functions of the pairs, base first, cut down to
    those it returns. *)
Theorem getContractFunctions_in_order (P : Program) (contract : ptr)
  (result : list ptr) :
  getContractFunctions P contract = Some result ->
  result = filter (fun f => existsb (Pos.eqb f) result)
                  (map fst (getContractFunctionPairs P contract)).
Proof.
  rewrite getContractFunctionPairs_fst, getContractFunctions_filter.
  intros [= <-]. apply filter_ext_in. intros f Hf.
  destruct (visibleb P contract f) eqn:E; symmetry.
  - apply existsb_exists. exists f. split; [|apply Pos.eqb_refl].
    apply filter_In. auto.
  - destruct (existsb _ _) eqn:Ex; [|reflexivity].
    apply existsb_exists in Ex. destruct Ex as (g & Hg & Hfg).
    apply Pos.eqb_eq in Hfg. subst g. apply filter_In in Hg. destruct Hg.
    congruence.
Qed.

Lemma getContractFunctions_in_order_witness :
  [20; 30]%positive =
  filter (fun f => existsb (Pos.eqb f) [20; 30]%positive)
         (map fst (getContractFunctionPairs sampleProgram 3)).
Proof.
  exact (getContractFunctions_in_order sampleProgram 3 [20; 30]%positive eq_refl).
Defined.

(** X25: a function of the chain that is no constructor and whose effective
    name starts with "tvm_" is left out by [getContractFunctions(contract)],
    yet the lookup by that name, [getContractFunctions(contract, name)],
    returns it. *)
Theorem intrinsic_hidden_but_found (P : Program) (contract f : ptr) :
  In f (map fst (getContractFunctionPairs P contract)) ->
  isConstructor (functionAt P f) = false ->
  has_prefix (functionName P f) "tvm_" ->
  (forall result, getContractFunctions P contract = Some result ->
                  ~ In f result) /\
  In f (getContractFunctionsNamed P contract (functionName P f)).
Proof.
  rewrite getContractFunctionPairs_fst. intros Hin Hc Hi. split.
  - intros result. rewrite getContractFunctions_filter. intros [= <-] Hf.
    apply filter_In in Hf. destruct Hf as [_ Hv].
    apply visibleb_true in Hv. destruct Hv as [Hn _].
    apply not_intrinsic in Hn. contradiction.
  - rewrite getContractFunctionsNamed_filter. apply filter_In.
    split; [assumption|]. apply candidateb_true.
    split; [assumption | symmetry; apply functionName_effectiveName].
Qed.

Lemma intrinsic_hidden_but_found_witness :
  (forall result, getContractFunctions sampleProgram 3 = Some result ->
                  ~ In 12%positive result) /\
  In 12%positive
     (getContractFunctionsNamed sampleProgram 3 (functionName sampleProgram 12)).
Proof.
  apply (intrinsic_hidden_but_found sampleProgram 3 12).
  - cbv. auto.
  - reflexivity.
  - now exists "accept".
Defined.

Example lengthOfDictKey_int_values :
  lengthOfDictKey integerTypeInfo 267
    (StructType [("a", IntegerType false 2147483647);
                 ("b", IntegerType false 2147483647)]) = Undefined /\
  lengthOfDictKey integerTypeInfo 267
    (StructType [("a", IntegerType false 2147483647);
                 ("b", IntegerType false 1); ("c", AddressType)]) = Undefined /\
  lengthOfDictKey integerTypeInfo 267
    (StructType [("a", IntegerType false 2147483646);
                 ("b", IntegerType false 1)]) = Ok INT_MAX /\
  lengthOfDictKey integerTypeInfo 267 (StructType []) = Ok 0.
Proof. repeat split; reflexivity. Qed.

Example rolesProgram_values :
  getContractFunctions rolesProgram 2 = Some [11; 20]%positive /\
  getContractFunctionsNamed rolesProgram 2 "receive" = [10; 20]%positive /\
  getContractFunctionsNamed rolesProgram 2 "fallback" = [11]%positive /\
  getContractFunctionsNamed rolesProgram 2 "" = [].
Proof. repeat split; reflexivity. Qed.
